(** * Minesweeper: the board engine of [main.cpp], embedded and verified

    The C++ class [Minesweeper] keeps three [rows]x[cols] grids
    ([minefield], [revealed], [counts]) as vectors of vectors indexed by
    [int].  The grids are modelled as lists of lists, [int] as [Z], and
    every [operator[]] as a checked access: an index outside the vector is
    undefined behaviour in C++, and the embedding stops there with the
    fault [OutOfRange], saying nothing of what a build does next.  All
    arithmetic of the program on in-range values stays
    far from the limits of [int] (indices plus or minus one, a count up to
    nine), so no wrap-around occurs on the defined executions. *)

From stdpp Require Import base tactics option list numbers strings pretty.
From Stdlib Require Import ZArith Lia Ascii.

Local Open Scope Z_scope.

(** ** Outcomes of fallible code *)

Inductive fault : Type :=
  | OutOfRange      (* a vector is indexed outside its bounds: undefined behaviour *)
  | BadVectorSize   (* std::vector constructed with a negative size: no vector results *)
  | BadDistribution (* uniform_int_distribution(a, b) with b < a (undefined behaviour) *)
  | OutOfDraws      (* the placement loop is still running when the given draws are used up *)
  | OutOfFuel       (* the flood loop is still running when its iteration budget is used up *)
  | EndOfInput.     (* std::cin has no further integer *)

Inductive result (A : Type) : Type :=
  | Ok (a : A)
  | Fault (f : fault).
Arguments Ok {A} a.
Arguments Fault {A} f.

#[global] Instance fault_eq_dec : EqDecision fault.
Proof. solve_decision. Defined.

#[global] Instance result_ret : MRet result := @Ok.
#[global] Instance result_bind : MBind result := λ A B k m,
  match m with
  | Ok a => k a
  | Fault f => Fault f
  end.

(** ** Vectors indexed by [int] *)

(** [v[i]] for reading. *)
Definition vget {A} (v : list A) (i : Z) : result A :=
  if 0 <=? i then
    match v !! Z.to_nat i with
    | Some x => Ok x
    | None => Fault OutOfRange
    end
  else Fault OutOfRange.

(** [m[r][c]] for reading. *)
Definition vget2 {A} (m : list (list A)) (r c : Z) : result A :=
  row ← vget m r; vget row c.

(** [m[r][c] = x]. *)
Definition vset2 {A} (m : list (list A)) (r c : Z) (x : A) : result (list (list A)) :=
  row ← vget m r;
  _ ← vget row c;
  Ok (<[Z.to_nat r := <[Z.to_nat c := x]> row]> m).

(** [std::vector<std::vector<T>>(rows, std::vector<T>(cols, x))]. *)
Definition vmake2 {A} (rows cols : Z) (x : A) : result (list (list A)) :=
  if (cols <? 0) || (rows <? 0) then Fault BadVectorSize
  else Ok (replicate (Z.to_nat rows) (replicate (Z.to_nat cols) x)).

(** A grid has shape [R]x[C]. *)
Definition shape {A} (R C : Z) (m : list (list A)) : Prop :=
  0 ≤ R ∧ 0 ≤ C ∧ length m = Z.to_nat R ∧ Forall (λ row, length row = Z.to_nat C) m.

Definition in_bounds (R C r c : Z) : Prop := 0 ≤ r < R ∧ 0 ≤ c < C.

(** ** The class [Minesweeper] *)

Record Minesweeper : Type := mkMinesweeper {
  rows : Z;
  cols : Z;
  num_mines : Z;
  minefield : list (list bool);
  revealed : list (list bool);
  counts : list (list Z)
}.

Definition with_revealed (g : Minesweeper) (revealed' : list (list bool)) : Minesweeper :=
  mkMinesweeper (rows g) (cols g) (num_mines g) (minefield g) revealed' (counts g).

(** A [for] loop over the values of [l], threading the loop state. *)
Fixpoint for_each {A S} (l : list A) (s : S) (body : S → A → result S) : result S :=
  match l with
  | [] => Ok s
  | x :: l => s ← body s x; for_each l s body
  end.

(** The values taken by [i] in [for (int i = -1; i <= 1; i++)]. *)
Definition offsets : list Z := [-1; 0; 1].

(** The guard [r >= 0 && r < rows && c >= 0 && c < cols]. *)
Definition inside (rows cols r c : Z) : bool :=
  (0 <=? r) && (r <? rows) && (0 <=? c) && (c <? cols).

(** [std::uniform_int_distribution<>(a, b)]: its constructor requires [a <= b]. *)
Definition uniform_int_distribution (a b : Z) : result unit :=
  if b <? a then Fault BadDistribution else Ok ().

(** The placement loop.  [draws] are the successive pairs
    [(row_dist(gen), col_dist(gen))] delivered by the generator that the
    constructor creates from [std::random_device]. *)
Fixpoint place_mines (draws : list (Z * Z)) (num_mines : Z)
    (minefield : list (list bool)) (num_placed : Z) : result (list (list bool)) :=
  if num_placed <? num_mines then
    match draws with
    | [] => Fault OutOfDraws
    | (row, col) :: draws =>
        mine ← vget2 minefield row col;
        if negb mine then
          minefield ← vset2 minefield row col true;
          place_mines draws num_mines minefield (num_placed + 1)
        else place_mines draws num_mines minefield num_placed
    end
  else Ok minefield.

(** The two inner loops of the constructor: the mines in the 3x3 block
    around [(row, col)], clipped to the board. *)
Definition count_around (rows cols : Z) (minefield : list (list bool))
    (row col : Z) : result Z :=
  for_each offsets 0 (λ count i,
    for_each offsets count (λ count j,
      if inside rows cols (row + i) (col + j) then
        mine ← vget2 minefield (row + i) (col + j);
        Ok (if mine : bool then count + 1 else count)
      else Ok count)).

(** The two outer loops of the constructor. *)
Definition compute_counts (rows cols : Z) (minefield : list (list bool))
    (counts : list (list Z)) : result (list (list Z)) :=
  for_each (seqZ 0 rows) counts (λ counts row,
    for_each (seqZ 0 cols) counts (λ counts col,
      mine ← vget2 minefield row col;
      if mine : bool then vset2 counts row col (-1)
      else
        count ← count_around rows cols minefield row col;
        vset2 counts row col count)).

(** The constructor [Minesweeper::Minesweeper(rows_, cols_, num_mines_)].
    Its parameters are the three integers; [draws] is what the generator it
    seeds from [std::random_device] happens to deliver. *)
Definition Minesweeper_ctor (rows_ cols_ num_mines_ : Z) (draws : list (Z * Z))
    : result Minesweeper :=
  minefield ← vmake2 rows_ cols_ false;
  revealed ← vmake2 rows_ cols_ false;
  counts ← vmake2 rows_ cols_ 0;
  _ ← uniform_int_distribution 0 (rows_ - 1);
  _ ← uniform_int_distribution 0 (cols_ - 1);
  minefield ← place_mines draws num_mines_ minefield 0;
  counts ← compute_counts rows_ cols_ minefield counts;
  Ok (mkMinesweeper rows_ cols_ num_mines_ minefield revealed counts).

(** A nested scan of the board with an early [return] as soon as [p] holds. *)
Fixpoint scan (p : Z → Z → result bool) (cells : list (Z * Z)) : result bool :=
  match cells with
  | [] => Ok false
  | (row, col) :: cells =>
      found ← p row col;
      if found : bool then Ok true else scan p cells
  end.

(** The cells in the order of
    [for (row = 0; row < rows; row++) for (col = 0; col < cols; col++)]. *)
Definition all_cells (rows cols : Z) : list (Z * Z) :=
  row ← seqZ 0 rows; col ← seqZ 0 cols; [(row, col)].

Definition is_game_over (g : Minesweeper) : result bool :=
  scan (λ row col,
          mine ← vget2 (minefield g) row col;
          if mine : bool then vget2 (revealed g) row col else Ok false)
       (all_cells (rows g) (cols g)).

Definition is_game_won (g : Minesweeper) : result bool :=
  found ← scan (λ row col,
                  mine ← vget2 (minefield g) row col;
                  if negb mine then
                    shown ← vget2 (revealed g) row col; Ok (negb shown)
                  else Ok false)
               (all_cells (rows g) (cols g));
  Ok (negb found).

(** The stack of [reveal] is a list whose head is [stack.back()]. *)
Definition push_neighbours (g : Minesweeper) (r c : Z) (stack : list (Z * Z))
    : list (Z * Z) :=
  foldl (λ stack i,
    foldl (λ stack j,
      if inside (rows g) (cols g) (r + i) (c + j) then (r + i, c + j) :: stack
      else stack) stack offsets) stack offsets.

(** One iteration of [while (!stack.empty())], entered with a non-empty
    stack. *)
Definition flood_step (g : Minesweeper) (stack : list (Z * Z))
    : result (Minesweeper * list (Z * Z)) :=
  match stack with
  | [] => Ok (g, [])
  | (r, c) :: stack =>
      shown ← vget2 (revealed g) r c;
      if shown : bool then Ok (g, stack)
      else
        revealed' ← vset2 (revealed g) r c true;
        let g' := with_revealed g revealed' in
        count ← vget2 (counts g') r c;
        if count =? 0 then Ok (g', push_neighbours g' r c stack)
        else Ok (g', stack)
  end.

(** The [while] loop, run for at most [fuel] iterations. *)
Fixpoint flood_loop (fuel : nat) (g : Minesweeper) (stack : list (Z * Z))
    : result Minesweeper :=
  match stack with
  | [] => Ok g
  | _ :: _ =>
      match fuel with
      | O => Fault OutOfFuel
      | S fuel => '(g', stack') ← flood_step g stack; flood_loop fuel g' stack'
      end
  end.

(** The number of cells of a grid, each weighted by [f]. *)
Definition tally {A} (f : A → nat) (m : list (list A)) : nat :=
  sum_list ((λ row, sum_list (f <$> row)) <$> m).

(** The number of hidden cells, from which the iteration budget of the
    flood is computed. *)
Definition hidden (m : list (list bool)) : nat :=
  tally (λ b : bool, if b then 0%nat else 1%nat) m.

(** Every iteration lowers [9 * hidden + length stack] (see
    [flood_step_measure]), so this many iterations always empty the stack
    (see [flood_loop_total]). *)
Definition flood_budget (g : Minesweeper) (stack : list (Z * Z)) : nat :=
  (9 * hidden (revealed g) + length stack)%nat.

(** [Minesweeper::reveal(row, col)]. *)
Definition reveal (g : Minesweeper) (row col : Z) : result Minesweeper :=
  mine ← vget2 (minefield g) row col;
  if mine : bool then
    revealed' ← vset2 (revealed g) row col true;
    Ok (with_revealed g revealed')
  else
    let stack := [(row, col)] in
    flood_loop (flood_budget g stack) g stack.

(** ** Rendering and the session *)

Definition endl : string := String "010"%char EmptyString.

(** [Minesweeper::print()]: the text written to [std::cout]. *)
Definition print (g : Minesweeper) : result string :=
  out ← for_each (seqZ 0 (cols g)) "  "%string (λ out col,
           Ok (out +:+ pretty col +:+ " "));
  let out := out +:+ endl in
  for_each (seqZ 0 (rows g)) out (λ out row,
    out ← for_each (seqZ 0 (cols g)) (out +:+ pretty row +:+ " ") (λ out col,
             shown ← vget2 (revealed g) row col;
             if shown : bool then
               count ← vget2 (counts g) row col;
               if count =? -1 then Ok (out +:+ "* ")
               else Ok (out +:+ pretty count +:+ " ")
             else Ok (out +:+ ". "));
    Ok (out +:+ endl)).


(** The loop of [main].  [input] holds the integers that [std::cin] still
    has to deliver, [out] the text written so far; the value is the text
    written when the loop is left. *)
Fixpoint session (g : Minesweeper) (input : list Z) (out : string) : result string :=
  over ← is_game_over g;
  if over : bool then Ok out
  else
    let out := out +:+ "Enter row and column to reveal: " in
    match input with
    | row :: col :: input =>
        g ← reveal g row col;
        board ← print g;
        let out := out +:+ board in
        won ← is_game_won g;
        if won : bool then Ok (out +:+ "Congratulations! You won the game!" +:+ endl)
        else
          over ← is_game_over g;
          if over : bool then Ok (out +:+ "You Lost! Game over." +:+ endl)
          else session g input out
    | _ => Fault EndOfInput
    end.



(** ** Notions used to state the properties *)

#[global] Instance result_eq_dec {A} `{EqDecision A} : EqDecision (result A).
Proof. solve_decision. Defined.

#[global] Instance in_bounds_dec R C r c : Decision (in_bounds R C r c).
Proof. unfold in_bounds. apply _. Defined.

(** The three grids have the dimensions recorded in [rows] and [cols]. *)
Definition well_formed (g : Minesweeper) : Prop :=
  shape (rows g) (cols g) (minefield g) ∧
  shape (rows g) (cols g) (revealed g) ∧
  shape (rows g) (cols g) (counts g).

Definition on_board (g : Minesweeper) (p : Z * Z) : Prop :=
  in_bounds (rows g) (cols g) p.1 p.2.
Definition is_mine (g : Minesweeper) (p : Z * Z) : Prop :=
  vget2 (minefield g) p.1 p.2 = Ok true.
Definition is_safe (g : Minesweeper) (p : Z * Z) : Prop :=
  vget2 (minefield g) p.1 p.2 = Ok false.
Definition is_revealed (g : Minesweeper) (p : Z * Z) : Prop :=
  vget2 (revealed g) p.1 p.2 = Ok true.
Definition is_hidden (g : Minesweeper) (p : Z * Z) : Prop :=
  vget2 (revealed g) p.1 p.2 = Ok false.
Definition count_is (g : Minesweeper) (p : Z * Z) (n : Z) : Prop :=
  vget2 (counts g) p.1 p.2 = Ok n.

#[global] Instance on_board_dec g p : Decision (on_board g p).
Proof. unfold on_board. apply _. Defined.
#[global] Instance is_mine_dec g p : Decision (is_mine g p).
Proof. unfold is_mine. apply _. Defined.
#[global] Instance is_safe_dec g p : Decision (is_safe g p).
Proof. unfold is_safe. apply _. Defined.
#[global] Instance is_revealed_dec g p : Decision (is_revealed g p).
Proof. unfold is_revealed. apply _. Defined.
#[global] Instance is_hidden_dec g p : Decision (is_hidden g p).
Proof. unfold is_hidden. apply _. Defined.
#[global] Instance count_is_dec g p n : Decision (count_is g p n).
Proof. unfold count_is. apply _. Defined.

(** The offsets [(i, j)] with [i], [j] in [{-1, 0, 1}] and [(i, j) ≠ (0, 0)]. *)
Definition moore_offsets : list (Z * Z) :=
  [(-1, -1); (-1, 0); (-1, 1); (0, -1); (0, 1); (1, -1); (1, 0); (1, 1)].

(** The nine offsets of the 3x3 block, in the order of the two loops. *)
Definition block_offsets : list (Z * Z) :=
  [(-1, -1); (-1, 0); (-1, 1); (0, -1); (0, 0); (0, 1); (1, -1); (1, 0); (1, 1)].

(** The number of mines in
    [{(r+i, c+j) : i, j ∈ {-1,0,1}, (i,j) ≠ (0,0)} ∩ board]. *)
Definition mines_around (g : Minesweeper) (p : Z * Z) : Z :=
  Z.of_nat (length (filter
    (λ d : Z * Z, on_board g (p.1 + d.1, p.2 + d.2) ∧ is_mine g (p.1 + d.1, p.2 + d.2))
    moore_offsets)).

(** One if the cell is a mine of the board, zero otherwise. *)
Definition mine_ind (g : Minesweeper) (p : Z * Z) : Z :=
  if decide (on_board g p ∧ is_mine g p) then 1 else 0.

(** The number of mines of a layout. *)
Definition mine_total (m : list (list bool)) : nat :=
  tally (λ b : bool, if b then 1%nat else 0%nat) m.

(** Two distinct cells that touch by a side or a corner. *)
Definition adjacent (p q : Z * Z) : Prop :=
  Z.abs (q.1 - p.1) ≤ 1 ∧ Z.abs (q.2 - p.2) ≤ 1 ∧ p ≠ q.

#[global] Instance adjacent_dec p q : Decision (adjacent p q).
Proof. unfold adjacent. apply _. Defined.

(** Consecutive cells of a path are adjacent. *)
Fixpoint chain (path : list (Z * Z)) : Prop :=
  match path with
  | p :: (q :: _) as rest => adjacent p q ∧ chain rest
  | _ => True
  end.

(** The cells of a path strictly between its two ends. *)
Definition interior (path : list (Z * Z)) : list (Z * Z) := removelast (tail path).

(** [counts] agrees with [minefield] on every cell of the board. *)
Definition counts_agree (g : Minesweeper) : Prop :=
  ∀ p, on_board g p →
    (is_mine g p ∧ count_is g p (-1)) ∨ (is_safe g p ∧ count_is g p (mines_around g p)).

(** Around every revealed cell of count zero, everything is revealed. *)
Definition flooded (g : Minesweeper) : Prop :=
  ∀ p q, on_board g p → is_revealed g p → count_is g p 0 →
    adjacent p q → on_board g q → is_revealed g q.

(** Two states of the same board: only [revealed] may differ. *)
Definition same_board (g g' : Minesweeper) : Prop :=
  rows g' = rows g ∧ cols g' = cols g ∧ num_mines g' = num_mines g ∧
  minefield g' = minefield g ∧ counts g' = counts g.

(** The states a game can be in: a constructed board, then any calls of
    [reveal] that return. *)
Inductive reachable : Minesweeper → Prop :=
  | reachable_new rows_ cols_ num_mines_ draws g :
      Minesweeper_ctor rows_ cols_ num_mines_ draws = Ok g → reachable g
  | reachable_reveal g row col g' :
      reachable g → reveal g row col = Ok g' → reachable g'.

(** A sequence of calls of [reveal]. *)
Fixpoint reveal_all (g : Minesweeper) (cells : list (Z * Z)) : result Minesweeper :=
  match cells with
  | [] => Ok g
  | (row, col) :: cells => g ← reveal g row col; reveal_all g cells
  end.

(** The number of [push_back] calls made by the first [fuel] iterations of
    the flood loop: an iteration pops one cell, so it pushed
    [length stack' + 1 - length stack] cells. *)
Fixpoint flood_pushes (fuel : nat) (g : Minesweeper) (stack : list (Z * Z)) : nat :=
  match stack, fuel with
  | _ :: _, S fuel =>
      match flood_step g stack with
      | Ok (g', stack') =>
          (length stack' + 1 - length stack + flood_pushes fuel g' stack')%nat
      | Fault _ => 0%nat
      end
  | _, _ => 0%nat
  end.


(** ** Sample boards *)

(** 3x3 with its one mine in the corner [(0, 0)], nothing revealed. *)
Definition corner_board : Minesweeper :=
  mkMinesweeper 3 3 1
    [[true; false; false]; [false; false; false]; [false; false; false]]
    [[false; false; false]; [false; false; false]; [false; false; false]]
    [[-1; 1; 0]; [1; 1; 0]; [0; 0; 0]].

(** 2x2 with mines in [(0, 0)] and [(1, 1)], nothing revealed. *)
Definition diagonal_board : Minesweeper :=
  mkMinesweeper 2 2 2
    [[true; false]; [false; true]]
    [[false; false]; [false; false]]
    [[-1; 2]; [2; -1]].

(** ** Notions for the further properties *)

(** The cells the flood started on [p0] can get to: [p0] itself, and every
    cell of the board adjacent to a cell of count zero it can get to. *)
Inductive zero_reach (g : Minesweeper) (p0 : Z * Z) : Z * Z → Prop :=
  | zero_reach_start : zero_reach g p0 p0
  | zero_reach_step q q' :
      zero_reach g p0 q → count_is g q 0 → adjacent q q' → on_board g q' →
      zero_reach g p0 q'.

(** 1x1 with a mine in its only cell, nothing revealed. *)
Definition lone_mine_board : Minesweeper :=
  mkMinesweeper 1 1 1 [[true]] [[false]] [[-1]].

(** 3x3 with its one mine in the corner [(2, 2)], nothing revealed. *)
Definition far_corner_board : Minesweeper :=
  mkMinesweeper 3 3 1
    [[false; false; false]; [false; false; false]; [false; false; true]]
    [[false; false; false]; [false; false; false]; [false; false; false]]
    [[0; 0; 0]; [0; 1; 1]; [0; 1; -1]].

(** The concatenation of a list of texts. *)
Definition join (l : list string) : string := foldr String.append EmptyString l.

(** The text of a board of [R] rows and [C] columns whose cell [(row, col)]
    is written as [cell row col]: the line of column numbers, then one
    numbered line for each row. *)
Definition board_text (R C : Z) (cell : Z → Z → string) : string :=
  "  " +:+ join ((λ col, pretty col +:+ " ") <$> seqZ 0 C) +:+ endl +:+
  join ((λ row, pretty row +:+ " " +:+ join (cell row <$> seqZ 0 C) +:+ endl)
          <$> seqZ 0 R).

(** What [print] writes for a cell, read off [revealed] and [counts]. *)
Definition cell_text (g : Minesweeper) (row col : Z) : string :=
  match vget2 (revealed g) row col with
  | Ok true =>
      match vget2 (counts g) row col with
      | Ok n => if n =? -1 then "* " else pretty n +:+ " "
      | Fault _ => EmptyString
      end
  | _ => ". "
  end.

(** What a cell is: hidden, a revealed mine, or a revealed cell with the
    number of mines around it. *)
Definition cell_view (g : Minesweeper) (row col : Z) : string :=
  match vget2 (revealed g) row col with
  | Ok true =>
      match vget2 (minefield g) row col with
      | Ok true => "* "
      | _ => pretty (mines_around g (row, col)) +:+ " "
      end
  | _ => ". "
  end.


(** [corner_board] after [reveal(0, 0)]: the mine is revealed, the game is
    lost. *)
Definition lost_corner_board : Minesweeper :=
  mkMinesweeper 3 3 1
    [[true; false; false]; [false; false; false]; [false; false; false]]
    [[true; false; false]; [false; false; false]; [false; false; false]]
    [[-1; 1; 0]; [1; 1; 0]; [0; 0; 0]].

(** [corner_board] after [reveal(2, 2)]: every cell but the mine is
    revealed, the game is won. *)
Definition won_corner_board : Minesweeper :=
  mkMinesweeper 3 3 1
    [[true; false; false]; [false; false; false]; [false; false; false]]
    [[false; true; true]; [true; true; true]; [true; true; true]]
    [[-1; 1; 0]; [1; 1; 0]; [0; 0; 0]].
(** * Properties *)

(** Goals about concrete coordinates. *)
Ltac on_board_tac :=
  repeat constructor; unfold on_board, in_bounds, adjacent; simpl; split_and?; (lia || done).

(** ** The outcome monad and vectors *)

Lemma bind_Ok {A B} (k : A → result B) (m : result A) (b : B) :
  m ≫= k = Ok b ↔ ∃ a, m = Ok a ∧ k a = Ok b.
Proof.
  destruct m as [a|f]; simpl; split.
  - eauto.
  - intros (a' & [= <-] & H). exact H.
  - discriminate.
  - intros (a' & [=] & _).
Qed.

Lemma vget_Ok {A} (v : list A) i x :
  vget v i = Ok x ↔ 0 ≤ i ∧ v !! Z.to_nat i = Some x.
Proof.
  unfold vget. destruct (Z.leb_spec 0 i) as [Hi|Hi].
  - destruct (v !! Z.to_nat i) as [y|]; split.
    + intros [= ->]. done.
    + intros [_ [= ->]]. done.
    + discriminate.
    + intros [_ [=]].
  - split; [discriminate | intros [? _]; lia].
Qed.

Lemma vget_fault {A} (v : list A) i f : vget v i = Fault f → f = OutOfRange.
Proof.
  unfold vget. destruct (0 <=? i); [destruct (v !! Z.to_nat i)|]; congruence.
Qed.

Lemma vget2_Ok {A} (m : list (list A)) r c x :
  vget2 m r c = Ok x ↔
  0 ≤ r ∧ 0 ≤ c ∧ ∃ row, m !! Z.to_nat r = Some row ∧ row !! Z.to_nat c = Some x.
Proof.
  unfold vget2. rewrite bind_Ok. split.
  - intros (row & Hr & Hc). apply vget_Ok in Hr as [? ?]. apply vget_Ok in Hc as [? ?].
    eauto 6.
  - intros (? & ? & row & Hr & Hc). exists row. rewrite !vget_Ok. done.
Qed.

Lemma vget2_fault {A} (m : list (list A)) r c f : vget2 m r c = Fault f → f = OutOfRange.
Proof.
  unfold vget2. destruct (vget m r) as [row|f'] eqn:E; simpl.
  - apply vget_fault.
  - intros [= <-]. eapply vget_fault, E.
Qed.

Lemma vset2_Ok {A} (m : list (list A)) r c x m' :
  vset2 m r c x = Ok m' ↔
  (∃ y, vget2 m r c = Ok y) ∧
  ∃ row, m !! Z.to_nat r = Some row ∧ m' = <[Z.to_nat r := <[Z.to_nat c := x]> row]> m.
Proof.
  unfold vset2, vget2. split.
  - intros H. apply bind_Ok in H as (row & Hr & H).
    apply bind_Ok in H as (y & Hc & [= <-]).
    split.
    + exists y. rewrite Hr. exact Hc.
    + exists row. split; [|done]. by apply vget_Ok in Hr as [_ ?].
  - intros [[y Hy] (row & Hrow & ->)].
    apply bind_Ok in Hy as (row' & Hr & Hc).
    pose proof Hr as Hr'. apply vget_Ok in Hr' as [_ Hr']. simplify_eq.
    rewrite Hr. simpl. rewrite Hc. done.
Qed.

Lemma vset2_fault {A} (m : list (list A)) r c x f : vset2 m r c x = Fault f → f = OutOfRange.
Proof.
  unfold vset2. destruct (vget m r) as [row|f'] eqn:E; simpl.
  - destruct (vget row c) eqn:E'; simpl; [discriminate|].
    intros [= <-]. eapply vget_fault, E'.
  - intros [= <-]. eapply vget_fault, E.
Qed.

(** Reading after a successful write. *)
Lemma vget2_vset2 {A} (m : list (list A)) r c x m' r' c' :
  vset2 m r c x = Ok m' →
  vget2 m' r' c' = if decide (r' = r ∧ c' = c) then Ok x else vget2 m r' c'.
Proof.
  intros H. apply vset2_Ok in H as [[y Hy] (row & Hrow & ->)].
  apply vget2_Ok in Hy as (Hr & Hc & row0 & Hrow0 & Hy).
  assert (row0 = row) as -> by congruence. clear Hrow0.
  pose proof (lookup_lt_Some _ _ _ Hrow) as Hlr.
  pose proof (lookup_lt_Some _ _ _ Hy) as Hlc.
  unfold vget2, vget.
  destruct (Z.leb_spec 0 r') as [Hr'|Hr']; [|by rewrite decide_False by lia].
  destruct (decide (r' = r)) as [->|Hne].
  - rewrite list_lookup_insert_eq by done. rewrite Hrow. simpl.
    destruct (Z.leb_spec 0 c') as [Hc'|Hc']; [|by rewrite decide_False by lia].
    destruct (decide (c' = c)) as [->|Hnc].
    + rewrite list_lookup_insert_eq by done. by rewrite decide_True.
    + rewrite list_lookup_insert_ne by lia. by rewrite decide_False by tauto.
  - rewrite list_lookup_insert_ne by lia. by rewrite decide_False by tauto.
Qed.

Lemma vget2_vset2_eq {A} (m : list (list A)) r c x m' :
  vset2 m r c x = Ok m' → vget2 m' r c = Ok x.
Proof. intros H. rewrite (vget2_vset2 _ _ _ _ _ _ _ H). by rewrite decide_True. Qed.

Lemma vget2_vset2_ne {A} (m : list (list A)) r c x m' r' c' :
  vset2 m r c x = Ok m' → (r', c') ≠ (r, c) → vget2 m' r' c' = vget2 m r' c'.
Proof.
  intros H Hne. rewrite (vget2_vset2 _ _ _ _ _ _ _ H).
  rewrite decide_False; [done|]. intros [-> ->]. done.
Qed.

Lemma shape_vget2 {A} R C (m : list (list A)) r c :
  shape R C m → in_bounds R C r c → ∃ x, vget2 m r c = Ok x.
Proof.
  intros (HR & HC & Hlen & Hrows) [Hr Hc].
  destruct (lookup_lt_is_Some_2 m (Z.to_nat r)) as [row Hrow]; [lia|].
  pose proof (proj1 (Forall_lookup _ _) Hrows _ _ Hrow) as Hl. simpl in Hl.
  destruct (lookup_lt_is_Some_2 row (Z.to_nat c)) as [x Hx]; [lia|].
  exists x. apply vget2_Ok. eauto 6 with lia.
Qed.

Lemma shape_vget2_inv {A} R C (m : list (list A)) r c x :
  shape R C m → vget2 m r c = Ok x → in_bounds R C r c.
Proof.
  intros (HR & HC & Hlen & Hrows) H.
  apply vget2_Ok in H as (Hr & Hc & row & Hrow & Hx).
  pose proof (proj1 (Forall_lookup _ _) Hrows _ _ Hrow) as Hl. simpl in Hl.
  apply lookup_lt_Some in Hrow, Hx. unfold in_bounds. lia.
Qed.

Lemma shape_vset2 {A} R C (m : list (list A)) r c x m' :
  shape R C m → vset2 m r c x = Ok m' → shape R C m'.
Proof.
  intros (HR & HC & Hlen & Hrows) H.
  apply vset2_Ok in H as [_ (row & Hrow & ->)].
  repeat split; try done.
  - by rewrite length_insert.
  - apply Forall_insert; [done|]. rewrite length_insert.
    exact (proj1 (Forall_lookup _ _) Hrows _ _ Hrow).
Qed.

Lemma shape_vset2_Ok {A} R C (m : list (list A)) r c x :
  shape R C m → in_bounds R C r c → ∃ m', vset2 m r c x = Ok m'.
Proof.
  intros Hs Hb. destruct (shape_vget2 _ _ _ _ _ Hs Hb) as [y Hy].
  pose proof Hy as Hy'. apply vget2_Ok in Hy' as (_ & _ & row & Hrow & _).
  eexists. apply vset2_Ok. split; [eauto|]. eauto.
Qed.

Lemma vmake2_Ok {A} rows cols (x : A) m :
  vmake2 rows cols x = Ok m →
  shape rows cols m ∧ ∀ r c y, vget2 m r c = Ok y → y = x.
Proof.
  unfold vmake2. destruct (Z.ltb_spec cols 0) as [?|Hc0]; [discriminate|].
  destruct (Z.ltb_spec rows 0) as [?|Hr0]; [discriminate|]. simpl. intros [= <-].
  split.
  - repeat split; try done.
    + by rewrite length_replicate.
    + apply Forall_replicate. by rewrite length_replicate.
  - intros r c y H. apply vget2_Ok in H as (_ & _ & row & Hrow & Hy).
    apply lookup_replicate in Hrow as [-> _].
    apply lookup_replicate in Hy as [-> _]. done.
Qed.


(** ** Loops *)

Lemma for_each_app {A S} (l1 l2 : list A) (s : S) body :
  for_each (l1 ++ l2) s body = s' ← for_each l1 s body; for_each l2 s' body.
Proof.
  revert s. induction l1 as [|x l1 IH]; intros s; simpl; [done|].
  destruct (body s x) as [s1|f]; simpl; [apply IH | done].
Qed.

(** A loop invariant indexed by the values already processed. *)
Lemma for_each_inv {A S} (I : list A → S → Prop) (l : list A) (s : S) body :
  I [] s →
  (∀ done x s, I done s → x ∈ l → ∃ s', body s x = Ok s' ∧ I (done ++ [x]) s') →
  ∃ s', for_each l s body = Ok s' ∧ I l s'.
Proof.
  intros H0 Hstep.
  assert (∀ l2 l1 s, l = l1 ++ l2 → I l1 s →
            ∃ s', for_each l2 s body = Ok s' ∧ I l s') as Hgen.
  { induction l2 as [|x l2 IH]; intros l1 s1 Hl HI; simpl.
    - exists s1. rewrite app_nil_r in Hl. by subst.
    - destruct (Hstep l1 x s1 HI) as (s2 & Hb & HI2).
      { subst l. apply elem_of_app. right. apply list_elem_of_here. }
      rewrite Hb. simpl. apply (IH (l1 ++ [x])); [|done].
      by rewrite <- app_assoc. }
  by apply (Hgen l [] s).
Qed.

(** Nested loops are one loop over the pairs of indices. *)
Lemma for_each_all_cells {S} R C (s : S) (body : S → Z → Z → result S) :
  for_each (seqZ 0 R) s (λ s row, for_each (seqZ 0 C) s (λ s col, body s row col))
  = for_each (all_cells R C) s (λ s p, body s p.1 p.2).
Proof.
  unfold all_cells. generalize (seqZ 0 R) as lr. intros lr. revert s.
  induction lr as [|row lr IH]; intros s; [done|].
  change (for_each (seqZ 0 C) s (λ s col, body s row col) ≫=
            (λ s, for_each lr s (λ s row, for_each (seqZ 0 C) s (λ s col, body s row col)))
          = for_each ((seqZ 0 C ≫= λ col, [(row, col)]) ++ (lr ≫= λ row, seqZ 0 C ≫= λ col, [(row, col)]))
              s (λ s p, body s p.1 p.2)).
  rewrite for_each_app.
  assert (∀ lc s, for_each lc s (λ s col, body s row col)
                  = for_each (lc ≫= λ col, [(row, col)]) s (λ s p, body s p.1 p.2)) as ->.
  { induction lc as [|col lc IHc]; intros s'; simpl; [done|].
    destruct (body s' row col); simpl; [apply IHc|done]. }
  destruct (for_each _ s _); simpl; [apply IH|done].
Qed.

Lemma elem_of_all_cells R C (p : Z * Z) : p ∈ all_cells R C ↔ in_bounds R C p.1 p.2.
Proof.
  unfold all_cells, in_bounds. rewrite list_elem_of_bind. split.
  - intros (row & Hp & Hrow). apply list_elem_of_bind in Hp as (col & Hp & Hcol).
    apply list_elem_of_singleton in Hp as ->. simpl.
    apply elem_of_seqZ in Hrow, Hcol. lia.
  - intros [Hr Hc]. exists p.1. split; [|apply elem_of_seqZ; lia].
    apply list_elem_of_bind. exists p.2. split; [|apply elem_of_seqZ; lia].
    destruct p. apply list_elem_of_singleton. done.
Qed.

(** ** Neighbour counts *)

Lemma inside_spec R C r c : inside R C r c = true ↔ in_bounds R C r c.
Proof.
  unfold inside, in_bounds. rewrite !andb_true_iff.
  rewrite !Z.leb_le, !Z.ltb_lt. lia.
Qed.

Lemma count_body g r c count :
  shape (rows g) (cols g) (minefield g) →
  (if inside (rows g) (cols g) r c then
     mine ← vget2 (minefield g) r c; Ok (if mine : bool then count + 1 else count)
   else Ok count) = Ok (count + mine_ind g (r, c)).
Proof.
  intros Hs. unfold mine_ind.
  destruct (inside (rows g) (cols g) r c) eqn:E.
  - apply inside_spec in E.
    destruct (shape_vget2 _ _ _ _ _ Hs E) as [[] Hx]; rewrite Hx; simpl.
    + by rewrite decide_True.
    + rewrite decide_False; [by rewrite Z.add_0_r|].
      unfold is_mine. simpl. rewrite Hx. intros [_ [=]].
  - rewrite decide_False; [by rewrite Z.add_0_r|].
    intros [Hb _]. unfold on_board in Hb. simpl in Hb.
    apply inside_spec in Hb. congruence.
Qed.

Lemma length_filter_sum {A} (P : A → Prop) `{∀ x, Decision (P x)} (l : list A) :
  Z.of_nat (length (filter P l)) = foldr (λ x acc, (if decide (P x) then 1 else 0) + acc) 0 l.
Proof.
  induction l as [|x l IH]; [done|].
  rewrite filter_cons. simpl foldr. rewrite <- IH. case_decide; simpl length; lia.
Qed.

Lemma count_around_spec g r c :
  shape (rows g) (cols g) (minefield g) →
  is_safe g (r, c) →
  count_around (rows g) (cols g) (minefield g) r c = Ok (mines_around g (r, c)).
Proof.
  intros Hs Hsafe. unfold count_around, offsets. cbn [for_each].
  repeat (rewrite count_body by done; cbn [mbind result_bind]).
  f_equal. unfold mines_around. rewrite length_filter_sum.
  unfold moore_offsets. cbn [foldr fst snd].
  assert (mine_ind g (r + 0, c + 0) = 0) as ->.
  { unfold mine_ind. rewrite !Z.add_0_r. rewrite decide_False; [done|].
    intros [_ Hm]. unfold is_mine, is_safe in *. simpl in *. congruence. }
  unfold mine_ind. lia.
Qed.

(** ** Tallies over a grid *)

Lemma sum_list_insert {A} (f : A → nat) (l : list A) i x y :
  l !! i = Some x →
  (sum_list (f <$> <[i:=y]> l) + f x = sum_list (f <$> l) + f y)%nat.
Proof.
  revert i. induction l as [|z l IH]; intros [|i] H; simplify_eq/=; [lia|].
  specialize (IH _ H). lia.
Qed.

Lemma tally_vset2 {A} (f : A → nat) (m : list (list A)) r c x y m' :
  vget2 m r c = Ok x → vset2 m r c y = Ok m' →
  (tally f m' + f x = tally f m + f y)%nat.
Proof.
  intros Hx Hset. apply vset2_Ok in Hset as [_ (row & Hrow & ->)].
  apply vget2_Ok in Hx as (_ & _ & row' & Hrow' & Hx).
  assert (row' = row) as -> by congruence.
  unfold tally.
  pose proof (sum_list_insert (λ row, sum_list (f <$> row)) m (Z.to_nat r) row
                (<[Z.to_nat c:=y]> row) Hrow) as H1.
  pose proof (sum_list_insert f row (Z.to_nat c) x y Hx) as H2.
  simpl in H1. lia.
Qed.

Lemma tally_le {A} (f : A → nat) R C (m : list (list A)) :
  (∀ x, f x ≤ 1)%nat → shape R C m → Z.of_nat (tally f m) ≤ R * C.
Proof.
  intros Hf (HR & HC & Hlen & Hrows).
  assert (∀ row : list A, sum_list (f <$> row) ≤ length row)%nat as Hrow.
  { induction row as [|x row IH]; csimpl; [lia|]. specialize (Hf x). lia. }
  assert (tally f m ≤ length m * Z.to_nat C)%nat as Hm.
  { unfold tally. clear Hlen. induction Hrows as [|row m Hr _ IH]; csimpl; [lia|].
    specialize (Hrow row). lia. }
  rewrite Hlen in Hm. apply Nat2Z.inj_le in Hm.
  rewrite Nat2Z.inj_mul, !Z2Nat.id in Hm by lia. lia.
Qed.

(** ** The constructor *)

Lemma place_mines_shape R C draws M mf n mf' :
  shape R C mf → place_mines draws M mf n = Ok mf' → shape R C mf'.
Proof.
  revert mf n. induction draws as [|[row col] draws IH]; intros mf n Hs; simpl.
  - destruct (n <? M); [discriminate|]. by intros [= <-].
  - destruct (n <? M); [|by intros [= <-]].
    destruct (vget2 mf row col) as [[]|] eqn:E; simpl; [by apply IH| |discriminate].
    destruct (vset2 mf row col true) as [mf1|] eqn:E1; simpl; [|discriminate].
    apply IH. by eapply shape_vset2.
Qed.

(** The loop counter is the number of mines placed so far. *)
Lemma place_mines_total draws M mf n mf' :
  n = Z.of_nat (mine_total mf) →
  place_mines draws M mf n = Ok mf' →
  Z.of_nat (mine_total mf') = Z.max n M.
Proof.
  revert mf n. induction draws as [|[row col] draws IH]; intros mf n Hn; simpl.
  - destruct (Z.ltb_spec n M); [discriminate|]. intros [= <-]. lia.
  - destruct (Z.ltb_spec n M) as [Hlt|Hge]; [|intros [= <-]; lia].
    destruct (vget2 mf row col) as [[]|] eqn:E; simpl; [ |  |discriminate].
    + intros H. by apply IH in H.
    + destruct (vset2 mf row col true) as [mf1|] eqn:E1; simpl; [|discriminate].
      intros H. apply IH in H; [lia|].
      pose proof (tally_vset2 (λ b : bool, if b then 1%nat else 0%nat) _ _ _ _ _ _ E E1) as Ht.
      unfold mine_total in *. cbv beta in Ht. lia.
Qed.

Lemma compute_counts_spec g cnt0 :
  shape (rows g) (cols g) (minefield g) →
  shape (rows g) (cols g) cnt0 →
  ∃ cnt, compute_counts (rows g) (cols g) (minefield g) cnt0 = Ok cnt ∧
    shape (rows g) (cols g) cnt ∧
    ∀ p, on_board g p →
      (is_mine g p ∧ vget2 cnt p.1 p.2 = Ok (-1)) ∨
      (is_safe g p ∧ vget2 cnt p.1 p.2 = Ok (mines_around g p)).
Proof.
  intros Hmf Hc0. unfold compute_counts.
  rewrite (for_each_all_cells (rows g) (cols g) cnt0
    (λ counts row col,
       mine ← vget2 (minefield g) row col;
       if mine : bool then vset2 counts row col (-1)
       else count ← count_around (rows g) (cols g) (minefield g) row col;
            vset2 counts row col count)).
  set (I := λ (done : list (Z * Z)) (cnt : list (list Z)),
    shape (rows g) (cols g) cnt ∧
    ∀ p, p ∈ done →
      (is_mine g p ∧ vget2 cnt p.1 p.2 = Ok (-1)) ∨
      (is_safe g p ∧ vget2 cnt p.1 p.2 = Ok (mines_around g p))).
  destruct (for_each_inv I (all_cells (rows g) (cols g)) cnt0
    (λ counts p,
       mine ← vget2 (minefield g) p.1 p.2;
       if mine : bool then vset2 counts p.1 p.2 (-1)
       else count ← count_around (rows g) (cols g) (minefield g) p.1 p.2;
            vset2 counts p.1 p.2 count)) as (cnt & Hrun & Hsh & Hall).
  - split; [done|]. intros p Hp. by apply elem_of_nil in Hp.
  - intros done [r c] cnt [Hsh Hdone] Hin. apply elem_of_all_cells in Hin. simpl in *.
    destruct (shape_vget2 _ _ _ _ _ Hmf Hin) as [mine Hmine]. rewrite Hmine. simpl.
    assert (∀ v, (mine = true → v = -1) → (mine = false → v = mines_around g (r, c)) →
              ∃ s', vset2 cnt r c v = Ok s' ∧ I (done ++ [(r, c)]) s') as Hput.
    { intros v Hv1 Hv2. destruct (shape_vset2_Ok _ _ _ r c v Hsh Hin) as [cnt' Hset].
      exists cnt'. split; [done|]. split.
      - by eapply shape_vset2.
      - intros p Hp. destruct (decide (p = (r, c))) as [->|Hne]; simpl.
        + rewrite (vget2_vset2_eq _ _ _ _ _ Hset). unfold is_mine, is_safe. simpl.
          rewrite Hmine. destruct mine; [left|right]; split; try done.
          * by rewrite Hv1.
          * by rewrite Hv2.
        + apply elem_of_app in Hp as [Hp|Hp].
          * rewrite (vget2_vset2_ne _ _ _ _ _ p.1 p.2 Hset); [by apply Hdone|].
            destruct p. done.
          * apply list_elem_of_singleton in Hp. done. }
    destruct mine.
    + by apply Hput.
    + rewrite count_around_spec by done. simpl. by apply Hput.
  - exists cnt. split; [done|]. split; [done|].
    intros p Hp. apply Hall. by apply elem_of_all_cells.
Qed.

Lemma mine_total_replicate n k : mine_total (replicate n (replicate k false)) = 0%nat.
Proof.
  unfold mine_total, tally.
  assert (sum_list ((λ b : bool, if b then 1%nat else 0%nat) <$> replicate k false) = 0%nat) as Hrow.
  { induction k as [|k IH]; csimpl; [done|]. by rewrite IH. }
  induction n as [|n IH]; csimpl; [done|]. rewrite IH. cbv beta. by rewrite Hrow.
Qed.

(** What a successful construction establishes. *)
Lemma ctor_Ok rows_ cols_ num_mines_ draws g :
  Minesweeper_ctor rows_ cols_ num_mines_ draws = Ok g →
  rows g = rows_ ∧ cols g = cols_ ∧ num_mines g = num_mines_ ∧
  1 ≤ rows_ ∧ 1 ≤ cols_ ∧
  well_formed g ∧ counts_agree g ∧
  (∀ p, on_board g p → is_hidden g p) ∧
  Z.of_nat (mine_total (minefield g)) = Z.max 0 num_mines_.
Proof.
  unfold Minesweeper_ctor. intros H.
  apply bind_Ok in H as (mf0 & Hmf0 & H).
  apply bind_Ok in H as (rev0 & Hrev0 & H).
  apply bind_Ok in H as (cnt0 & Hcnt0 & H).
  apply bind_Ok in H as ([] & Hdr & H).
  apply bind_Ok in H as ([] & Hdc & H).
  apply bind_Ok in H as (mf & Hmf & H).
  apply bind_Ok in H as (cnt & Hcnt & [= <-]).
  unfold uniform_int_distribution in Hdr, Hdc.
  destruct (Z.ltb_spec (rows_ - 1) 0); [discriminate|].
  destruct (Z.ltb_spec (cols_ - 1) 0); [discriminate|].
  pose proof Hmf0 as Hmk.
  apply vmake2_Ok in Hmf0 as [Hs_mf0 _].
  apply vmake2_Ok in Hrev0 as [Hs_rev Hrev_all].
  apply vmake2_Ok in Hcnt0 as [Hs_cnt0 _].
  pose proof (place_mines_shape _ _ _ _ _ _ _ Hs_mf0 Hmf) as Hs_mf.
  set (g := mkMinesweeper rows_ cols_ num_mines_ mf rev0 cnt).
  destruct (compute_counts_spec (mkMinesweeper rows_ cols_ num_mines_ mf rev0 cnt0) cnt0)
    as (cnt' & Hcnt' & Hs_cnt & Hagree); [done..|].
  simpl in Hcnt'. rewrite Hcnt in Hcnt'. injection Hcnt' as <-.
  simpl in Hs_cnt. simpl. split_and!; try done; try lia.
  - intros p Hp. destruct (shape_vget2 _ _ _ _ _ Hs_rev Hp) as [b Hb].
    unfold is_hidden. simpl. rewrite Hb. f_equal. eapply Hrev_all, Hb.
  - apply place_mines_total in Hmf; [done|].
    unfold vmake2 in Hmk. destruct (_ || _); [discriminate|]. injection Hmk as <-.
    by rewrite mine_total_replicate.
Qed.

Lemma ctor_well_formed rows_ cols_ num_mines_ draws g :
  Minesweeper_ctor rows_ cols_ num_mines_ draws = Ok g → well_formed g.
Proof. intros H. apply ctor_Ok in H. tauto. Qed.

Lemma corner_board_constructed : Minesweeper_ctor 3 3 1 [(0, 0)] = Ok corner_board.
Proof. reflexivity. Qed.













(** ** The flood: one iteration *)

Lemma foldl_cond_push {A B} (P : A → bool) (f : A → B) (l : list A) (st : list B) :
  ∃ nb, foldl (λ st x, if P x then f x :: st else st) st l = nb ++ st ∧
    (length nb ≤ length l)%nat ∧
    ∀ y, y ∈ nb ↔ ∃ x, x ∈ l ∧ P x = true ∧ y = f x.
Proof.
  revert st. induction l as [|x l IH]; intros st; simpl.
  - exists []. split; [done|]. split; [done|].
    intros y. split; [by intros ?%elem_of_nil|].
    by intros (x & ?%elem_of_nil & _).
  - destruct (IH (if P x then f x :: st else st)) as (nb & Heq & Hlen & Hin).
    destruct (P x) eqn:HP.
    + exists (nb ++ [f x]). rewrite Heq, <- app_assoc. split; [done|].
      split; [rewrite length_app; simpl; lia|].
      intros y. rewrite elem_of_app, Hin, list_elem_of_singleton. split.
      * intros [(x' & Hx' & HP' & ->)| ->].
        -- exists x'. split; [by apply list_elem_of_further|done].
        -- exists x. split; [apply list_elem_of_here|done].
      * intros (x' & Hx' & HP' & ->). apply elem_of_cons in Hx' as [->|Hx'].
        -- by right.
        -- left. eauto.
    + exists nb. split; [done|]. split; [lia|].
      intros y. rewrite Hin. split.
      * intros (x' & Hx' & HP' & ->). exists x'. split; [by apply list_elem_of_further|done].
      * intros (x' & Hx' & HP' & ->). apply elem_of_cons in Hx' as [->|Hx'].
        -- congruence.
        -- eauto.
Qed.

Lemma push_neighbours_spec g r c st :
  ∃ nb, push_neighbours g r c st = nb ++ st ∧
    (length nb ≤ 9)%nat ∧
    ∀ q, q ∈ nb ↔ ∃ d, d ∈ block_offsets ∧ on_board g q ∧ q = (r + d.1, c + d.2).
Proof.
  destruct (foldl_cond_push
              (λ d : Z * Z, inside (rows g) (cols g) (r + d.1) (c + d.2))
              (λ d : Z * Z, (r + d.1, c + d.2)) block_offsets st)
    as (nb & Heq & Hlen & Hin).
  exists nb. split; [exact Heq|]. split; [exact Hlen|].
  intros q. rewrite Hin. split.
  - intros (d & Hd & Hins & ->). exists d. split; [done|]. split; [|done].
    by apply inside_spec in Hins.
  - intros (d & Hd & Hon & ->). exists d. split; [done|]. split; [|done].
    by apply inside_spec.
Qed.

Lemma adjacent_offset p q :
  adjacent p q → ∃ d, d ∈ moore_offsets ∧ q = (p.1 + d.1, p.2 + d.2).
Proof.
  destruct p as [r c], q as [r' c']. unfold adjacent. simpl. intros (Hr & Hc & Hne).
  exists (r' - r, c' - c). split; [|simpl; f_equal; lia].
  assert (r' - r = -1 ∨ r' - r = 0 ∨ r' - r = 1) as Hdr by lia.
  assert (c' - c = -1 ∨ c' - c = 0 ∨ c' - c = 1) as Hdc by lia.
  unfold moore_offsets.
  destruct Hdr as [-> |[Hr0| ->]], Hdc as [-> |[Hc0| ->]];
    try rewrite Hr0; try rewrite Hc0; try (repeat constructor; fail).
  exfalso. apply Hne. f_equal; lia.
Qed.

Lemma moore_in_block d : d ∈ moore_offsets → d ∈ block_offsets.
Proof.
  unfold moore_offsets, block_offsets. rewrite !elem_of_cons. tauto.
Qed.

Lemma block_in_moore d : d ∈ block_offsets → d = (0, 0) ∨ d ∈ moore_offsets.
Proof.
  unfold moore_offsets, block_offsets. rewrite !elem_of_cons. tauto.
Qed.

(** The two ways an iteration can go. *)
Lemma flood_step_inv g p st g' st' :
  flood_step g (p :: st) = Ok (g', st') →
  (is_revealed g p ∧ g' = g ∧ st' = st) ∨
  (is_hidden g p ∧
   ∃ rev' n, vset2 (revealed g) p.1 p.2 true = Ok rev' ∧ g' = with_revealed g rev' ∧
     count_is g p n ∧
     ((n = 0 ∧ st' = push_neighbours g' p.1 p.2 st) ∨ (n ≠ 0 ∧ st' = st))).
Proof.
  destruct p as [r c]. unfold is_revealed, is_hidden, count_is. simpl.
  destruct (vget2 (revealed g) r c) as [[]|] eqn:Hshown; simpl; [|  |discriminate].
  - intros [= <- <-]. by left.
  - destruct (vset2 (revealed g) r c true) as [rev'|] eqn:Hset; simpl; [|discriminate].
    destruct (vget2 (counts g) r c) as [n|] eqn:Hn; simpl; [|discriminate].
    intros H. right. split; [done|]. exists rev', n. split; [done|].
    destruct (Z.eqb_spec n 0) as [->|Hne]; injection H as <- <-; split_and!; auto.
Qed.

Lemma same_board_refl g : same_board g g.
Proof. by unfold same_board. Qed.

Lemma same_board_trans g1 g2 g3 : same_board g1 g2 → same_board g2 g3 → same_board g1 g3.
Proof. unfold same_board. intros (-> & -> & -> & -> & ->). tauto. Qed.

Lemma same_board_with_revealed g rev' : same_board g (with_revealed g rev').
Proof. by unfold same_board. Qed.

Section same_board.
Context (g g' : Minesweeper) (Hsame : same_board g g').

Lemma same_board_on_board p : on_board g' p ↔ on_board g p.
Proof. destruct Hsame as (Hr & Hc & _). unfold on_board. by rewrite Hr, Hc. Qed.

Lemma same_board_is_mine p : is_mine g' p ↔ is_mine g p.
Proof. destruct Hsame as (_ & _ & _ & Hm & _). unfold is_mine. by rewrite Hm. Qed.

Lemma same_board_is_safe p : is_safe g' p ↔ is_safe g p.
Proof. destruct Hsame as (_ & _ & _ & Hm & _). unfold is_safe. by rewrite Hm. Qed.

Lemma same_board_count_is p n : count_is g' p n ↔ count_is g p n.
Proof. destruct Hsame as (_ & _ & _ & _ & Hc). unfold count_is. by rewrite Hc. Qed.

Lemma same_board_mines_around p : mines_around g' p = mines_around g p.
Proof.
  destruct Hsame as (Hr & Hc & _ & Hm & _).
  unfold mines_around, on_board, is_mine. f_equal. f_equal.
  apply list_filter_iff. intros d. by rewrite Hr, Hc, Hm.
Qed.

Lemma same_board_counts_agree : counts_agree g → counts_agree g'.
Proof.
  intros H p Hp. apply same_board_on_board in Hp.
  rewrite same_board_is_mine, same_board_is_safe, !same_board_count_is,
    same_board_mines_around. by apply H.
Qed.
End same_board.

Lemma safe_not_mine g p : is_safe g p → is_mine g p → False.
Proof. unfold is_safe, is_mine. congruence. Qed.

Lemma count_is_inj g p n m : count_is g p n → count_is g p m → n = m.
Proof. unfold count_is. congruence. Qed.

Lemma hidden_not_revealed g p : is_hidden g p → is_revealed g p → False.
Proof. unfold is_hidden, is_revealed. congruence. Qed.

Lemma well_formed_with_revealed g r c x rev' :
  well_formed g → vset2 (revealed g) r c x = Ok rev' → well_formed (with_revealed g rev').
Proof.
  intros (Hm & Hr & Hc) Hset. split_and!; simpl; try done. by eapply shape_vset2.
Qed.

(** What one iteration does: it reveals the popped cell and, when that
    cell was hidden and has count zero, pushes its block. *)
Lemma flood_step_spec g p st g' st' :
  flood_step g (p :: st) = Ok (g', st') →
  same_board g g' ∧
  (well_formed g → well_formed g') ∧
  (∀ q, is_revealed g' q ↔ q = p ∨ is_revealed g q) ∧
  ((hidden (revealed g') = hidden (revealed g) ∧ is_revealed g p ∧ st' = st) ∨
   (S (hidden (revealed g')) = hidden (revealed g) ∧ is_hidden g p ∧
    ((st' = st ∧ ∃ n, count_is g p n ∧ n ≠ 0) ∨
     (count_is g p 0 ∧ st' = push_neighbours g p.1 p.2 st)))).
Proof.
  intros H. apply flood_step_inv in H
    as [(Hp & -> & ->)|(Hp & rev' & n & Hset & -> & Hn & Hst)].
  - split; [apply same_board_refl|]. split; [done|]. split; [|by left].
    intros q. split; [by right|]. by intros [->|?].
  - split; [apply same_board_with_revealed|].
    split; [intros Hwf; by eapply well_formed_with_revealed|].
    split.
    + intros q. unfold is_revealed. simpl.
      rewrite (vget2_vset2 _ _ _ _ _ q.1 q.2 Hset). destruct p as [r c], q as [r' c']. simpl.
      destruct (decide (r' = r ∧ c' = c)) as [[-> ->]|Hne].
      * split; [by left|done].
      * split; [by right|]. intros [[= -> ->]|?]; [tauto|done].
    + right. split.
      { pose proof (tally_vset2 (λ b : bool, if b then 0%nat else 1%nat) _ _ _ _ _ _ Hp Hset) as Ht.
        change (revealed (with_revealed g rev')) with rev'.
        unfold hidden. cbv beta iota in Ht. lia. }
      split; [done|].
      destruct Hst as [[-> ->]|[Hne ->]]; [by right|]. left. split; [done|]. by exists n.
Qed.

(** Every iteration lowers the budget. *)
Lemma flood_step_measure g p st g' st' :
  flood_step g (p :: st) = Ok (g', st') →
  (flood_budget g' st' < flood_budget g (p :: st))%nat.
Proof.
  intros H. apply flood_step_spec in H as (_ & _ & _ & Hcase).
  unfold flood_budget. simpl length.
  destruct Hcase as [(Hh & _ & ->)|(Hh & _ & [[-> _]|[_ ->]])]; [lia..|].
  destruct (push_neighbours_spec g p.1 p.2 st) as (nb & -> & Hlen & _).
  rewrite length_app. lia.
Qed.

(** On a well-formed state an iteration goes through, and keeps the stack
    on the board. *)
Lemma flood_step_progress g p st :
  well_formed g → Forall (on_board g) (p :: st) →
  ∃ g' st', flood_step g (p :: st) = Ok (g', st') ∧
    well_formed g' ∧ Forall (on_board g') st'.
Proof.
  intros Hwf Hst. pose proof Hwf as (Hm & Hr & Hc).
  apply Forall_cons in Hst as [Hp Hst].
  assert (∃ g' st', flood_step g (p :: st) = Ok (g', st')) as (g' & st' & Hstep).
  { destruct p as [r c]. unfold on_board in Hp. simpl in Hp. simpl.
    destruct (shape_vget2 _ _ _ _ _ Hr Hp) as [[] Hshown]; rewrite Hshown; simpl; [eauto|].
    destruct (shape_vset2_Ok _ _ _ _ _ true Hr Hp) as [rev' Hset]. rewrite Hset. simpl.
    destruct (shape_vget2 _ _ _ _ _ Hc Hp) as [n Hn]. rewrite Hn. simpl.
    destruct (n =? 0); eauto. }
  exists g', st'. split; [done|].
  apply flood_step_spec in Hstep as (Hsame & Hwf' & _ & Hcase).
  split; [auto|].
  assert (Forall (on_board g') st) as Hst'.
  { eapply Forall_impl; [exact Hst|]. intros q. by apply same_board_on_board. }
  destruct Hcase as [(_ & _ & ->)|(_ & _ & [[-> _]|[_ ->]])]; [done..|].
  destruct (push_neighbours_spec g p.1 p.2 st) as (nb & -> & _ & Hnb).
  apply Forall_app. split; [|done].
  apply Forall_forall. intros q Hq. apply Hnb in Hq as (d & _ & Hon & _).
  by apply (same_board_on_board g g').
Qed.

(** ** The flood: the loop *)

Lemma flood_loop_inv (I : Minesweeper → list (Z * Z) → Prop) :
  (∀ g p st g' st', I g (p :: st) → flood_step g (p :: st) = Ok (g', st') → I g' st') →
  ∀ fuel g st g', I g st → flood_loop fuel g st = Ok g' → I g' [].
Proof.
  intros Hstep. induction fuel as [|fuel IH]; intros g st g' HI;
    destruct st as [|p st]; simpl.
  - by intros [= <-].
  - discriminate.
  - by intros [= <-].
  - intros H. apply bind_Ok in H as ([g1 st1] & Hs & Hl).
    eapply IH; [|exact Hl]. eapply Hstep; eauto.
Qed.

(** The budget is enough: the loop empties the stack. *)
Lemma flood_loop_total fuel g st :
  well_formed g → Forall (on_board g) st → (flood_budget g st ≤ fuel)%nat →
  ∃ g', flood_loop fuel g st = Ok g'.
Proof.
  revert g st. induction fuel as [|fuel IH]; intros g st Hwf Hst Hfuel;
    destruct st as [|p st]; cbn [flood_loop]; eauto.
  - unfold flood_budget in Hfuel. simpl in Hfuel. lia.
  - destruct (flood_step_progress g p st Hwf Hst) as (g1 & st1 & Hstep & Hwf1 & Hst1).
    rewrite Hstep. cbn [mbind result_bind]. apply IH; [done..|].
    apply flood_step_measure in Hstep. lia.
Qed.

(** More fuel does not change a result. *)
Lemma flood_loop_more_fuel fuel fuel' g st g' :
  flood_loop fuel g st = Ok g' → (fuel ≤ fuel')%nat → flood_loop fuel' g st = Ok g'.
Proof.
  revert fuel' g st. induction fuel as [|fuel IH]; intros fuel' g st;
    destruct st as [|p st]; cbn [flood_loop]; try discriminate.
  - intros [= <-] _. by destruct fuel'.
  - intros [= <-] _. by destruct fuel'.
  - intros H Hle. destruct fuel' as [|fuel']; [lia|]. cbn [flood_loop].
    apply bind_Ok in H as ([g1 st1] & Hs & Hl). rewrite Hs. cbn [mbind result_bind].
    apply IH; [done|lia].
Qed.

(** The pushes are paid for by the cells that get revealed. *)
Lemma flood_pushes_le fuel g st :
  (flood_pushes fuel g st ≤ 9 * hidden (revealed g))%nat.
Proof.
  revert g st. induction fuel as [|fuel IH]; intros g st; destruct st as [|p st];
    cbn [flood_pushes]; try lia.
  destruct (flood_step g (p :: st)) as [[g1 st1]|] eqn:Hstep; [|lia].
  specialize (IH g1 st1).
  apply flood_step_spec in Hstep as (_ & _ & _ & Hcase).
  destruct Hcase as [(Hh & _ & ->)|(Hh & _ & [[-> _]|[_ ->]])]; [simpl; lia..|].
  destruct (push_neighbours_spec g p.1 p.2 st) as (nb & Heq & Hlen & _).
  rewrite Heq in *. rewrite length_app. simpl. lia.
Qed.

Lemma flood_loop_same_board fuel g st g' :
  flood_loop fuel g st = Ok g' → same_board g g'.
Proof.
  apply (flood_loop_inv (λ g1 _, same_board g g1)); [|apply same_board_refl].
  intros g1 p st1 g2 st2 H1 Hstep. apply flood_step_spec in Hstep as (Hs & _).
  by eapply same_board_trans.
Qed.

Lemma flood_loop_well_formed fuel g st g' :
  well_formed g → flood_loop fuel g st = Ok g' → well_formed g'.
Proof.
  apply (flood_loop_inv (λ g1 _, well_formed g1)).
  intros g1 p st1 g2 st2 H1 Hstep. apply flood_step_spec in Hstep as (_ & Hwf & _). auto.
Qed.

Lemma flood_loop_monotone fuel g st g' q :
  flood_loop fuel g st = Ok g' → is_revealed g q → is_revealed g' q.
Proof.
  intros Hl Hq. revert Hl.
  apply (flood_loop_inv (λ g1 _, is_revealed g1 q)); [|done].
  intros g1 p st1 g2 st2 H1 Hstep. apply flood_step_spec in Hstep as (_ & _ & Hrev & _).
  apply Hrev. by right.
Qed.

(** Around a safe cell whose count is zero there is no mine. *)
Lemma zero_count_safe g p q :
  well_formed g → counts_agree g →
  on_board g p → is_safe g p → count_is g p 0 →
  (∃ d, d ∈ block_offsets ∧ q = (p.1 + d.1, p.2 + d.2)) → on_board g q →
  is_safe g q.
Proof.
  intros (Hm & _ & _) Hagree Hp Hsafe Hzero (d & Hd & ->) Hq.
  apply block_in_moore in Hd as [->|Hd].
  { destruct p as [r c]. simpl. by rewrite !Z.add_0_r. }
  destruct (Hagree p Hp) as [[Hmine _]|[_ Hcount]].
  { by destruct (safe_not_mine g p). }
  pose proof (count_is_inj _ _ _ _ Hzero Hcount) as Hnone.
  unfold mines_around in Hnone.
  destruct (shape_vget2 _ _ _ _ _ Hm Hq) as [[] Hb]; [|exact Hb].
  exfalso.
  assert (d ∈ filter (λ d : Z * Z, on_board g (p.1 + d.1, p.2 + d.2) ∧
                        is_mine g (p.1 + d.1, p.2 + d.2)) moore_offsets) as Hin.
  { apply list_elem_of_filter. split; [|done]. split; [done|exact Hb]. }
  destruct (filter _ moore_offsets); [by apply elem_of_nil in Hin|].
  simpl in Hnone. lia.
Qed.

(** Flood safety, for the loop: started on safe cells, the flood reveals
    safe cells only. *)
Lemma flood_loop_safe fuel g st g' :
  well_formed g → counts_agree g →
  Forall (on_board g) st → Forall (is_safe g) st →
  flood_loop fuel g st = Ok g' →
  ∀ q, is_revealed g' q → is_revealed g q ∨ is_safe g q.
Proof.
  intros Hwf Hagree Hon Hsafe Hl.
  enough (same_board g g' ∧ Forall (on_board g) [] ∧ Forall (is_safe g) [] ∧
          ∀ q, is_revealed g' q → is_revealed g q ∨ is_safe g q) by tauto.
  revert Hl.
  apply (flood_loop_inv (λ g1 st1, same_board g g1 ∧ Forall (on_board g) st1 ∧
           Forall (is_safe g) st1 ∧ ∀ q, is_revealed g1 q → is_revealed g q ∨ is_safe g q));
    [|split_and!; auto using same_board_refl].
  intros g1 p st1 g2 st2 (Hs1 & Hon1 & Hsafe1 & Hrev1) Hstep.
  apply flood_step_spec in Hstep as (Hs2 & _ & Hrev2 & Hcase).
  apply Forall_cons in Hon1 as [Hp Hon1]. apply Forall_cons in Hsafe1 as [Hps Hsafe1].
  split; [by eapply same_board_trans|].
  assert (∀ q, is_revealed g2 q → is_revealed g q ∨ is_safe g q) as Hrev3.
  { intros q [->|Hq]%Hrev2; [by right|by apply Hrev1]. }
  destruct Hcase as [(_ & _ & ->)|(_ & _ & [[-> _]|[Hzero ->]])]; [done..|].
  destruct (push_neighbours_spec g1 p.1 p.2 st1) as (nb & -> & _ & Hnb).
  assert (∀ q, q ∈ nb → on_board g q ∧ is_safe g q) as Hnb'.
  { intros q (d & Hd & Hq & ->)%Hnb.
    apply (same_board_on_board g g1 Hs1) in Hq. split; [done|].
    apply (zero_count_safe g p); eauto.
    by apply (same_board_count_is g g1 Hs1). }
  split_and!; [| |done]; apply Forall_app; (split; [|done]);
    apply Forall_forall; intros q Hq; by apply Hnb'.
Qed.

(** Flood closure, for the loop: the cells of the stack end up revealed,
    and so does everything around a revealed cell of count zero. *)
Lemma flood_loop_closed fuel g st g' :
  flooded g → flood_loop fuel g st = Ok g' →
  flooded g' ∧ ∀ q, q ∈ st → is_revealed g' q.
Proof.
  intros Hfl Hl.
  enough (same_board g g' ∧
          (∀ p q, on_board g p → is_revealed g' p → count_is g p 0 →
                  adjacent p q → on_board g q → is_revealed g' q ∨ q ∈ []) ∧
          (∀ q, q ∈ st → is_revealed g' q ∨ q ∈ [])) as (Hs & H1 & H2).
  { split.
    - intros p q Hp Hrev Hzero Hadj Hq.
      apply (same_board_on_board g g' Hs) in Hp, Hq.
      apply (same_board_count_is g g' Hs) in Hzero.
      destruct (H1 p q) as [?|[]%elem_of_nil]; done.
    - intros q Hq. destruct (H2 q Hq) as [?|[]%elem_of_nil]; done. }
  revert Hl.
  apply (flood_loop_inv (λ g1 st1, same_board g g1 ∧
          (∀ p q, on_board g p → is_revealed g1 p → count_is g p 0 →
                  adjacent p q → on_board g q → is_revealed g1 q ∨ q ∈ st1) ∧
          (∀ q, q ∈ st → is_revealed g1 q ∨ q ∈ st1))).
  - intros g1 x st1 g2 st2 (Hs1 & Hcl & Htodo) Hstep.
    apply flood_step_spec in Hstep as (Hs2 & _ & Hrev2 & Hcase).
    split; [by eapply same_board_trans|].
    assert (∀ q, q ∈ st1 → q ∈ st2) as Hsub.
    { intros q Hq.
      destruct Hcase as [(_ & _ & ->)|(_ & _ & [[-> _]|[_ ->]])]; [done..|].
      destruct (push_neighbours_spec g1 x.1 x.2 st1) as (nb & -> & _).
      apply elem_of_app. by right. }
    assert (∀ q, is_revealed g1 q ∨ q ∈ x :: st1 → is_revealed g2 q ∨ q ∈ st2) as Hkeep.
    { intros q [Hq|[->|Hq]%elem_of_cons].
      - left. apply Hrev2. by right.
      - left. apply Hrev2. by left.
      - right. by apply Hsub. }
    split; [|intros q Hq; by apply Hkeep, Htodo].
    intros p q Hp [->|Hrev]%Hrev2 Hzero Hadj Hq; [|by apply Hkeep, (Hcl p q)].
    apply (same_board_count_is g g1 Hs1) in Hzero.
    destruct Hcase as [(_ & Hx & _)|(_ & _ & [[_ (n & Hn & Hne)]|[_ ->]])].
    + apply Hkeep, (Hcl x q); try done. by apply (same_board_count_is g g1 Hs1).
    + destruct Hne. by eapply count_is_inj.
    + right. destruct (push_neighbours_spec g1 x.1 x.2 st1) as (nb & -> & _ & Hnb).
      apply elem_of_app. left. apply Hnb.
      destruct (adjacent_offset x q Hadj) as (d & Hd & ->).
      exists d. split; [by apply moore_in_block|]. split; [|done].
      by apply (same_board_on_board g g1 Hs1).
  - split; [apply same_board_refl|]. split; [|by right].
    intros p q Hp Hrev Hzero Hadj Hq. left. by apply (Hfl p q).
Qed.

(** ** [reveal] *)

Lemma reveal_inv g r c g' :
  reveal g r c = Ok g' →
  (is_mine g (r, c) ∧
   ∃ rev', vset2 (revealed g) r c true = Ok rev' ∧ g' = with_revealed g rev') ∨
  (is_safe g (r, c) ∧ flood_loop (flood_budget g [(r, c)]) g [(r, c)] = Ok g').
Proof.
  unfold reveal, is_mine, is_safe. simpl.
  destruct (vget2 (minefield g) r c) as [[]|]; simpl; [| |discriminate].
  - intros H. apply bind_Ok in H as (rev' & Hset & [= <-]). left. eauto.
  - intros H. by right.
Qed.

Lemma reveal_same_board g r c g' : reveal g r c = Ok g' → same_board g g'.
Proof.
  intros [(_ & rev' & _ & ->)|[_ Hl]]%reveal_inv.
  - apply same_board_with_revealed.
  - by eapply flood_loop_same_board.
Qed.

Lemma reveal_well_formed g r c g' :
  well_formed g → reveal g r c = Ok g' → well_formed g'.
Proof.
  intros Hwf [(_ & rev' & Hset & ->)|[_ Hl]]%reveal_inv.
  - by eapply well_formed_with_revealed.
  - by eapply flood_loop_well_formed.
Qed.

(** After revealing a mine, the revealed cells are the old ones and the
    mine. *)
Lemma reveal_mine_revealed g r c rev' q :
  vset2 (revealed g) r c true = Ok rev' →
  is_revealed (with_revealed g rev') q ↔ q = (r, c) ∨ is_revealed g q.
Proof.
  intros Hset. unfold is_revealed. simpl.
  rewrite (vget2_vset2 _ _ _ _ _ q.1 q.2 Hset). destruct q as [r' c']. simpl.
  destruct (decide (r' = r ∧ c' = c)) as [[-> ->]|Hne].
  - split; [by left|done].
  - split; [by right|]. intros [[= -> ->]|?]; [tauto|done].
Qed.

Lemma reveal_monotone g r c g' q :
  reveal g r c = Ok g' → is_revealed g q → is_revealed g' q.
Proof.
  intros [(_ & rev' & Hset & ->)|[_ Hl]]%reveal_inv Hq.
  - apply (reveal_mine_revealed _ _ _ _ _ Hset). by right.
  - by eapply flood_loop_monotone.
Qed.

(** The flood reveals the cell it starts from, whatever the state. *)
Lemma flood_loop_start fuel g p g' :
  flood_loop fuel g [p] = Ok g' → is_revealed g' p.
Proof.
  destruct fuel as [|fuel]; cbn [flood_loop]; [discriminate|].
  intros H. apply bind_Ok in H as ([g1 st1] & Hstep & Hl).
  apply flood_step_spec in Hstep as (_ & _ & Hrev & _).
  eapply flood_loop_monotone; [exact Hl|]. apply Hrev. by left.
Qed.

Lemma reveal_target g r c g' : reveal g r c = Ok g' → is_revealed g' (r, c).
Proof.
  intros [(_ & rev' & Hset & ->)|[_ Hl]]%reveal_inv.
  - apply (reveal_mine_revealed _ _ _ _ _ Hset). by left.
  - by eapply flood_loop_start.
Qed.

(** On a well-formed state [reveal] returns for every cell of the board. *)
Lemma reveal_total g r c :
  well_formed g → in_bounds (rows g) (cols g) r c → ∃ g', reveal g r c = Ok g'.
Proof.
  intros Hwf Hb. pose proof Hwf as (Hm & Hr & _). unfold reveal.
  destruct (shape_vget2 _ _ _ _ _ Hm Hb) as [[] Hmine]; rewrite Hmine; simpl.
  - destruct (shape_vset2_Ok _ _ _ _ _ true Hr Hb) as [rev' Hset]. rewrite Hset. simpl. eauto.
  - apply flood_loop_total; [done| |done]. by apply Forall_singleton.
Qed.

Lemma reveal_flooded g r c g' :
  well_formed g → counts_agree g → flooded g → reveal g r c = Ok g' → flooded g'.
Proof.
  intros Hwf Hagree Hfl [(Hmine & rev' & Hset & ->)|[_ Hl]]%reveal_inv.
  - intros p q Hp Hrev Hzero Hadj Hq.
    apply (reveal_mine_revealed _ _ _ _ _ Hset). right.
    apply (reveal_mine_revealed _ _ _ _ _ Hset) in Hrev as [->|Hrev].
    + exfalso. destruct (Hagree (r, c)) as [[_ Hc]|[Hs _]]; [done| |].
      * pose proof (count_is_inj _ _ _ _ Hzero Hc). lia.
      * by eapply safe_not_mine.
    + by apply (Hfl p q).
  - by apply (flood_loop_closed _ _ _ _ Hfl Hl).
Qed.

(** What holds in every state of a game. *)
Lemma reachable_inv g :
  reachable g → well_formed g ∧ counts_agree g ∧ flooded g ∧ 1 ≤ rows g ∧ 1 ≤ cols g.
Proof.
  induction 1 as [R C M draws g Hnew|g r c g' _ (Hwf & Hagree & Hfl & HR & HC) Hrev].
  - apply ctor_Ok in Hnew as (<- & <- & _ & ? & ? & Hwf & Hagree & Hhid & _).
    split_and!; try done.
    intros p q Hp Hrev. destruct (hidden_not_revealed g p); auto.
  - pose proof (reveal_same_board _ _ _ _ Hrev) as Hs.
    split_and!.
    + by eapply reveal_well_formed.
    + by eapply same_board_counts_agree.
    + by eapply reveal_flooded.
    + destruct Hs as (-> & _). done.
    + destruct Hs as (_ & -> & _). done.
Qed.

(** Whatever the state, [reveal] never uses up the budget of its loop:
    it returns, or it indexes a vector out of range. *)
Lemma flood_step_fault g st f : flood_step g st = Fault f → f = OutOfRange.
Proof.
  destruct st as [|[r c] st]; simpl; [discriminate|].
  destruct (vget2 (revealed g) r c) as [[]|] eqn:E1; simpl; [discriminate| |].
  - destruct (vset2 (revealed g) r c true) as [rev'|] eqn:E2; simpl.
    + destruct (vget2 (counts g) r c) as [n|] eqn:E3; simpl.
      * destruct (n =? 0); discriminate.
      * intros [= <-]. by eapply vget2_fault.
    + intros [= <-]. by eapply vset2_fault.
  - intros [= <-]. by eapply vget2_fault.
Qed.

Lemma flood_loop_fault fuel g st f :
  (flood_budget g st ≤ fuel)%nat → flood_loop fuel g st = Fault f → f = OutOfRange.
Proof.
  revert g st. induction fuel as [|fuel IH]; intros g st Hfuel;
    destruct st as [|p st]; cbn [flood_loop]; try discriminate.
  - unfold flood_budget in Hfuel. simpl in Hfuel. lia.
  - destruct (flood_step g (p :: st)) as [[g1 st1]|f1] eqn:Hstep; cbn [mbind result_bind].
    + apply IH. apply flood_step_measure in Hstep. lia.
    + intros [= <-]. by eapply flood_step_fault.
Qed.

Lemma reveal_fault g r c f : reveal g r c = Fault f → f = OutOfRange.
Proof.
  unfold reveal.
  destruct (vget2 (minefield g) r c) as [[]|] eqn:E; simpl.
  - destruct (vset2 (revealed g) r c true) eqn:E2; simpl; [discriminate|].
    intros [= <-]. by eapply vset2_fault.
  - by apply flood_loop_fault.
  - intros [= <-]. by eapply vget2_fault.
Qed.

(** ** The end-of-game tests *)

Lemma scan_spec (p : Z → Z → result bool) (cells : list (Z * Z)) :
  (∀ x, x ∈ cells → ∃ b, p x.1 x.2 = Ok b) →
  ∃ b, scan p cells = Ok b ∧ (b = true ↔ ∃ x, x ∈ cells ∧ p x.1 x.2 = Ok true).
Proof.
  induction cells as [|[r c] cells IH]; intros Hp; simpl.
  - exists false. split; [done|]. split; [done|]. by intros (x & ?%elem_of_nil & _).
  - destruct (Hp (r, c)) as [b Hb]; [apply list_elem_of_here|]. simpl in Hb.
    rewrite Hb. simpl. destruct b.
    + exists true. split; [done|]. split; [|done]. intros _.
      exists (r, c). split; [apply list_elem_of_here|done].
    + destruct IH as (b & Hscan & Hiff).
      { intros x Hx. apply Hp. by apply list_elem_of_further. }
      exists b. split; [done|]. rewrite Hiff. split.
      * intros (x & Hx & Hpx). exists x. split; [by apply list_elem_of_further|done].
      * intros (x & [->|Hx]%elem_of_cons & Hpx); [simpl in Hpx; congruence|eauto].
Qed.

Lemma is_game_over_spec g :
  well_formed g →
  ∃ b, is_game_over g = Ok b ∧
    (b = true ↔ ∃ p, on_board g p ∧ is_mine g p ∧ is_revealed g p).
Proof.
  intros (Hm & Hr & _). unfold is_game_over.
  destruct (scan_spec
    (λ row col, mine ← vget2 (minefield g) row col;
                if mine : bool then vget2 (revealed g) row col else Ok false)
    (all_cells (rows g) (cols g))) as (b & Hscan & Hiff).
  { intros x Hx%elem_of_all_cells.
    destruct (shape_vget2 _ _ _ _ _ Hm Hx) as [[] ->]; simpl; [|eauto].
    by apply (shape_vget2 _ _ _ _ _ Hr). }
  exists b. split; [done|]. rewrite Hiff. unfold on_board, is_mine, is_revealed.
  split.
  - intros (x & Hx%elem_of_all_cells & Hpx). exists x. split; [done|].
    destruct (vget2 (minefield g) x.1 x.2) as [[]|]; simpl in Hpx; done.
  - intros (x & Hx & Hmine & Hrev). exists x. split; [by apply elem_of_all_cells|].
    rewrite Hmine. simpl. done.
Qed.

Lemma is_game_won_spec g :
  well_formed g →
  ∃ b, is_game_won g = Ok b ∧
    (b = true ↔ ∀ p, on_board g p → is_safe g p → is_revealed g p).
Proof.
  intros (Hm & Hr & _). unfold is_game_won.
  destruct (scan_spec
    (λ row col, mine ← vget2 (minefield g) row col;
                if negb mine then shown ← vget2 (revealed g) row col; Ok (negb shown)
                else Ok false)
    (all_cells (rows g) (cols g))) as (b & Hscan & Hiff).
  { intros x Hx%elem_of_all_cells.
    destruct (shape_vget2 _ _ _ _ _ Hm Hx) as [[] ->]; simpl; [eauto|].
    destruct (shape_vget2 _ _ _ _ _ Hr Hx) as [shown ->]. simpl. eauto. }
  rewrite Hscan. simpl. exists (negb b). split; [done|].
  rewrite negb_true_iff. unfold on_board, is_safe, is_revealed.
  destruct b.
  - split; [done|]. intros Hall.
    destruct (proj1 Hiff eq_refl) as (x & Hx%elem_of_all_cells & Hpx).
    destruct (vget2 (minefield g) x.1 x.2) as [[]|] eqn:Hmine; simpl in Hpx; try done.
    rewrite (Hall x Hx Hmine) in Hpx. done.
  - split; [|done]. intros _ x Hx Hsafe.
    destruct (shape_vget2 _ _ _ _ _ Hr Hx) as [[] Hshown]; [done|].
    assert (false = true); [|done]. apply Hiff.
    exists x. split; [by apply elem_of_all_cells|]. rewrite Hsafe. simpl.
    by rewrite Hshown.
Qed.

Lemma corner_board_reachable : reachable corner_board.
Proof. exact (reachable_new 3 3 1 [(0, 0)] corner_board eq_refl). Qed.

Lemma diagonal_board_reachable : reachable diagonal_board.
Proof. exact (reachable_new 2 2 2 [(0, 0); (1, 1)] diagonal_board eq_refl). Qed.

(** ** Out-of-range coordinates *)

(** C3, as stated, fails: [reveal(3, 0)] on a 3x3 board is not a
    reported error that leaves the state as it is; it indexes [minefield]
    outside its bounds. *)
Lemma reveal_out_of_range_counterexample :
  reachable corner_board ∧
  ¬ in_bounds (rows corner_board) (cols corner_board) 3 0 ∧
  reveal corner_board 3 0 = Fault OutOfRange ∧
  reveal corner_board 3 0 ≠ Ok corner_board.
Proof.
  split; [apply corner_board_reachable|].
  split; [unfold in_bounds; simpl; lia|].
  split; [reflexivity|discriminate].
Qed.

(** C3, amended. [reveal] performs no range check and reports nothing.
    It has a defined result exactly for the cells of the board: for
    [(r, c)] out of range its first statement, the read of
    [minefield[r][c]], is an access outside the vector, which C++ leaves
    undefined, so that neither an unchanged state nor any other outcome is
    guaranteed for such a request. *)
Theorem reveal_out_of_range g r c :
  reachable g →
  (in_bounds (rows g) (cols g) r c ↔ ∃ g', reveal g r c = Ok g') ∧
  (¬ in_bounds (rows g) (cols g) r c →
   vget2 (minefield g) r c = Fault OutOfRange ∧ reveal g r c = Fault OutOfRange).
Proof.
  intros (Hwf & _)%reachable_inv. pose proof Hwf as (Hm & _).
  assert (¬ in_bounds (rows g) (cols g) r c →
          vget2 (minefield g) r c = Fault OutOfRange) as Hout.
  { intros Hout. destruct (vget2 (minefield g) r c) as [b|f] eqn:E.
    - destruct Hout. by eapply shape_vget2_inv.
    - f_equal. by eapply vget2_fault. }
  split; [split|].
  - by apply reveal_total.
  - intros [g' Hrev]. destruct (decide (in_bounds (rows g) (cols g) r c)) as [|Hno]; [done|].
    unfold reveal in Hrev. by rewrite (Hout Hno) in Hrev.
  - intros Hno. split; [by apply Hout|]. unfold reveal. by rewrite (Hout Hno).
Qed.

Lemma reveal_out_of_range_witness :
  (in_bounds (rows corner_board) (cols corner_board) 0 3 ↔
   ∃ g', reveal corner_board 0 3 = Ok g') ∧
  vget2 (minefield corner_board) 0 3 = Fault OutOfRange ∧
  reveal corner_board 0 3 = Fault OutOfRange.
Proof.
  destruct (reveal_out_of_range corner_board 0 3) as [Hiff Hout].
  - exact (reachable_new 3 3 1 [(0, 0)] corner_board eq_refl).
  - split; [exact Hiff|]. apply Hout. unfold in_bounds. simpl. lia.
Defined.

(** ** Revealing a mine *)

(** C9. Revealing a mine marks that cell as revealed, changes the revealed
    flag of no other cell and nothing else of the game, and after it
    [is_game_over] returns true. *)
Theorem reveal_mine_frame g r c :
  reachable g →
  in_bounds (rows g) (cols g) r c →
  vget2 (minefield g) r c = Ok true →
  ∃ g', reveal g r c = Ok g' ∧
    vget2 (revealed g') r c = Ok true ∧
    (∀ r' c', (r', c') ≠ (r, c) → vget2 (revealed g') r' c' = vget2 (revealed g) r' c') ∧
    same_board g g' ∧
    is_game_over g' = Ok true.
Proof.
  intros (Hwf & _)%reachable_inv Hb Hmine.
  pose proof Hwf as (_ & Hr & _).
  destruct (shape_vset2_Ok _ _ _ _ _ true Hr Hb) as [rev' Hset].
  exists (with_revealed g rev').
  assert (reveal g r c = Ok (with_revealed g rev')) as Hrev.
  { unfold reveal. rewrite Hmine. simpl. by rewrite Hset. }
  split_and!; try done.
  - simpl. by eapply vget2_vset2_eq.
  - intros r' c' Hne. simpl. by eapply vget2_vset2_ne.
  - destruct (is_game_over_spec (with_revealed g rev')) as (b & Hover & Hiff).
    { by eapply well_formed_with_revealed. }
    rewrite Hover. f_equal. apply Hiff. exists (r, c). split_and!; try done.
    unfold is_revealed. simpl. by eapply vget2_vset2_eq.
Qed.

Lemma reveal_mine_frame_witness :
  ∃ g', reveal corner_board 0 0 = Ok g' ∧
    vget2 (revealed g') 0 0 = Ok true ∧
    (∀ r' c', (r', c') ≠ (0, 0) →
       vget2 (revealed g') r' c' = vget2 (revealed corner_board) r' c') ∧
    same_board corner_board g' ∧
    is_game_over g' = Ok true.
Proof.
  apply (reveal_mine_frame corner_board 0 0).
  - exact (reachable_new 3 3 1 [(0, 0)] corner_board eq_refl).
  - on_board_tac.
  - reflexivity.
Defined.

(** ** Idempotence *)

Lemma with_revealed_id g : with_revealed g (revealed g) = g.
Proof. by destruct g. Qed.

Lemma vset2_id {A} (m : list (list A)) r c x :
  vget2 m r c = Ok x → vset2 m r c x = Ok m.
Proof.
  intros H. apply vset2_Ok. split; [eauto|].
  apply vget2_Ok in H as (_ & _ & row & Hrow & Hx). exists row. split; [done|].
  rewrite (list_insert_id row) by done. by rewrite list_insert_id.
Qed.

Lemma flood_loop_nil fuel g : flood_loop fuel g [] = Ok g.
Proof. by destruct fuel. Qed.

(** Revealing a revealed cell changes nothing, in any state. *)
Lemma reveal_revealed g r c g0 :
  reveal g r c = Ok g0 → is_revealed g (r, c) → g0 = g.
Proof.
  intros [(_ & rev' & Hset & ->)|[_ Hl]]%reveal_inv Hshown;
    unfold is_revealed in Hshown; simpl in Hshown.
  - rewrite (vset2_id _ _ _ _ Hshown) in Hset. injection Hset as <-.
    apply with_revealed_id.
  - unfold flood_budget in Hl. rewrite Nat.add_1_r in Hl. cbn [flood_loop] in Hl.
    unfold flood_step in Hl. rewrite Hshown in Hl. cbn [mbind result_bind] in Hl.
    rewrite flood_loop_nil in Hl. congruence.
Qed.

(** C7. In every state of a game and for every cell of the board,
    [reveal(r, c)] returns, and calling it a second time leaves the state
    exactly as the first call left it; on a cell that is already revealed
    the first call changes nothing either. *)
Theorem reveal_idempotent g r c :
  reachable g →
  in_bounds (rows g) (cols g) r c →
  ∃ g1, reveal g r c = Ok g1 ∧ reveal g1 r c = Ok g1 ∧
    (vget2 (revealed g) r c = Ok true → g1 = g).
Proof.
  intros Hreach Hb. pose proof (reachable_inv g Hreach) as (Hwf & _).
  destruct (reveal_total g r c Hwf Hb) as [g1 H1]. exists g1.
  split; [done|]. split; [|by apply reveal_revealed].
  pose proof (reveal_well_formed _ _ _ _ Hwf H1) as Hwf1.
  pose proof (reveal_same_board _ _ _ _ H1) as (Hr & Hc & _).
  destruct (reveal_total g1 r c Hwf1) as [g2 H2]; [by rewrite Hr, Hc|].
  rewrite H2. f_equal. apply (reveal_revealed _ _ _ _ H2). by eapply reveal_target.
Qed.

Lemma reveal_idempotent_witness :
  ∃ g1, reveal corner_board 2 2 = Ok g1 ∧ reveal g1 2 2 = Ok g1 ∧
    (vget2 (revealed corner_board) 2 2 = Ok true → g1 = corner_board).
Proof.
  apply (reveal_idempotent corner_board 2 2).
  - exact (reachable_new 3 3 1 [(0, 0)] corner_board eq_refl).
  - on_board_tac.
Defined.

(** ** Monotonicity *)

Lemma reveal_all_app g cells1 cells2 :
  reveal_all g (cells1 ++ cells2) = g1 ← reveal_all g cells1; reveal_all g1 cells2.
Proof.
  revert g. induction cells1 as [|[r c] cells1 IH]; intros g; simpl; [done|].
  destruct (reveal g r c); simpl; [apply IH|done].
Qed.

Lemma reveal_all_total g cells :
  well_formed g → Forall (on_board g) cells →
  ∃ g', reveal_all g cells = Ok g' ∧ well_formed g' ∧ same_board g g'.
Proof.
  revert g. induction cells as [|[r c] cells IH]; intros g Hwf Hon; simpl.
  - exists g. split_and!; auto using same_board_refl.
  - apply Forall_cons in Hon as [Hrc Hon].
    destruct (reveal_total g r c Hwf Hrc) as [g1 H1]. rewrite H1. simpl.
    pose proof (reveal_same_board _ _ _ _ H1) as Hs.
    destruct (IH g1) as (g' & Hall & Hwf' & Hs').
    + by eapply reveal_well_formed.
    + eapply Forall_impl; [exact Hon|]. intros p. by apply same_board_on_board.
    + exists g'. split_and!; try done. by eapply same_board_trans.
Qed.

Lemma reveal_all_monotone g cells g' q :
  reveal_all g cells = Ok g' → is_revealed g q → is_revealed g' q.
Proof.
  revert g. induction cells as [|[r c] cells IH]; intros g; simpl.
  - by intros [= <-].
  - intros H Hq. apply bind_Ok in H as (g1 & H1 & Hall).
    apply (IH g1 Hall). by eapply reveal_monotone.
Qed.

(** C8. In a game, from its construction on, every cell starts hidden, and
    along any sequence of [reveal] calls on cells of the board (each of
    which returns) a cell that is revealed at some point of the sequence is
    revealed at every later point. *)
Theorem revealed_monotone rows_ cols_ num_mines_ draws g0 before after :
  Minesweeper_ctor rows_ cols_ num_mines_ draws = Ok g0 →
  Forall (on_board g0) (before ++ after) →
  (∀ r c, in_bounds rows_ cols_ r c → vget2 (revealed g0) r c = Ok false) ∧
  ∃ g1 g2,
    reveal_all g0 before = Ok g1 ∧ reveal_all g1 after = Ok g2 ∧
    reveal_all g0 (before ++ after) = Ok g2 ∧
    ∀ r c, vget2 (revealed g1) r c = Ok true → vget2 (revealed g2) r c = Ok true.
Proof.
  intros Hnew Hon.
  pose proof (ctor_Ok _ _ _ _ _ Hnew) as (Hr & Hc & _ & _ & _ & Hwf & _ & Hhid & _).
  split.
  { intros r c Hb. apply (Hhid (r, c)). unfold on_board. simpl. by rewrite Hr, Hc. }
  apply Forall_app in Hon as [Hon1 Hon2].
  destruct (reveal_all_total g0 before Hwf Hon1) as (g1 & H1 & Hwf1 & Hs1).
  destruct (reveal_all_total g1 after Hwf1) as (g2 & H2 & _).
  { eapply Forall_impl; [exact Hon2|]. intros p. by apply same_board_on_board. }
  exists g1, g2. split_and!; try done.
  - rewrite reveal_all_app, H1. exact H2.
  - intros r c. apply (reveal_all_monotone g1 after g2 (r, c) H2).
Qed.

Lemma revealed_monotone_witness :
  (∀ r c, in_bounds 3 3 r c → vget2 (revealed corner_board) r c = Ok false) ∧
  ∃ g1 g2,
    reveal_all corner_board [(0, 1); (2, 2)] = Ok g1 ∧
    reveal_all g1 [(0, 0); (0, 1)] = Ok g2 ∧
    reveal_all corner_board ([(0, 1); (2, 2)] ++ [(0, 0); (0, 1)]) = Ok g2 ∧
    ∀ r c, vget2 (revealed g1) r c = Ok true → vget2 (revealed g2) r c = Ok true.
Proof.
  apply (revealed_monotone 3 3 1 [(0, 0)] corner_board [(0, 1); (2, 2)] [(0, 0); (0, 1)]).
  - reflexivity.
  - on_board_tac.
Defined.

(** ** Flood safety *)

(** C4. In every state of a game, [reveal] on a cell of the board that is
    not a mine returns, every cell it turns from hidden to revealed is not
    a mine, and [is_game_over] is still false afterwards if it was false
    before. *)
Theorem flood_safety g r c :
  reachable g →
  in_bounds (rows g) (cols g) r c →
  vget2 (minefield g) r c = Ok false →
  ∃ g', reveal g r c = Ok g' ∧
    (∀ r' c', vget2 (revealed g) r' c' = Ok false →
              vget2 (revealed g') r' c' = Ok true →
              vget2 (minefield g) r' c' = Ok false) ∧
    (is_game_over g = Ok false → is_game_over g' = Ok false).
Proof.
  intros Hreach Hb Hsafe.
  pose proof (reachable_inv g Hreach) as (Hwf & Hagree & _).
  destruct (reveal_total g r c Hwf Hb) as [g' Hrev]. exists g'. split; [done|].
  assert (∀ q, is_revealed g' q → is_revealed g q ∨ is_safe g q) as Hnew.
  { apply reveal_inv in Hrev as [(Hmine & _)|[_ Hl]].
    - unfold is_mine in Hmine. simpl in Hmine. congruence.
    - eapply flood_loop_safe; [exact Hwf|exact Hagree| | |exact Hl];
        by apply Forall_singleton. }
  split.
  - intros r' c' Hhid Hshown. destruct (Hnew (r', c') Hshown) as [Hold|Hs]; [|done].
    unfold is_revealed in Hold. simpl in Hold. congruence.
  - intros Hover.
    pose proof (reveal_well_formed _ _ _ _ Hwf Hrev) as Hwf'.
    pose proof (reveal_same_board _ _ _ _ Hrev) as Hs.
    destruct (is_game_over_spec g Hwf) as (b & Hb1 & Hiff).
    destruct (is_game_over_spec g' Hwf') as (b' & Hb2 & Hiff').
    rewrite Hb2. f_equal. destruct b'; [|done].
    destruct (proj1 Hiff' eq_refl) as (p & Hp & Hmine & Hshown).
    apply (same_board_on_board g g' Hs) in Hp.
    apply (same_board_is_mine g g' Hs) in Hmine.
    destruct (Hnew p Hshown) as [Hold|Hsf].
    + assert (b = true) as -> by (apply Hiff; eauto). congruence.
    + by destruct (safe_not_mine g p).
Qed.

Lemma flood_safety_witness :
  ∃ g', reveal corner_board 2 2 = Ok g' ∧
    (∀ r' c', vget2 (revealed corner_board) r' c' = Ok false →
              vget2 (revealed g') r' c' = Ok true →
              vget2 (minefield corner_board) r' c' = Ok false) ∧
    (is_game_over corner_board = Ok false → is_game_over g' = Ok false).
Proof.
  apply (flood_safety corner_board 2 2).
  - exact (reachable_new 3 3 1 [(0, 0)] corner_board eq_refl).
  - on_board_tac.
  - reflexivity.
Defined.

(** ** Termination of the flood *)

(** C10. In every state of a game and for every cell [(r, c)] of the
    board, the worklist loop started on [(r, c)] empties its stack within
    [9 * rows * cols + 1] iterations, whatever larger bound it is given the
    result is the same, and it makes at most [9 * rows * cols] pushes; on a
    cell that is not a mine this loop is what [reveal] runs. *)
Theorem flood_terminates g r c :
  reachable g →
  in_bounds (rows g) (cols g) r c →
  ∃ n g',
    Z.of_nat n ≤ 9 * rows g * cols g + 1 ∧
    flood_loop n g [(r, c)] = Ok g' ∧
    (∀ fuel, (n ≤ fuel)%nat → flood_loop fuel g [(r, c)] = Ok g') ∧
    (∀ fuel, Z.of_nat (flood_pushes fuel g [(r, c)]) ≤ 9 * rows g * cols g) ∧
    (vget2 (minefield g) r c = Ok false → reveal g r c = Ok g').
Proof.
  intros (Hwf & _)%reachable_inv Hb. pose proof Hwf as (_ & Hr & _).
  assert (Z.of_nat (hidden (revealed g)) ≤ rows g * cols g) as Hhid.
  { apply tally_le; [|done]. intros []; lia. }
  destruct (flood_loop_total (flood_budget g [(r, c)]) g [(r, c)]) as [g' Hl];
    [done|by apply Forall_singleton|done|].
  exists (flood_budget g [(r, c)]), g'. split_and!.
  - unfold flood_budget. simpl length. lia.
  - done.
  - intros fuel Hle. by eapply flood_loop_more_fuel.
  - intros fuel. pose proof (flood_pushes_le fuel g [(r, c)]). lia.
  - intros Hsafe. unfold reveal. rewrite Hsafe. exact Hl.
Qed.

Lemma flood_terminates_witness :
  ∃ n g',
    Z.of_nat n ≤ 9 * 3 * 3 + 1 ∧
    flood_loop n corner_board [(2, 2)] = Ok g' ∧
    (∀ fuel, (n ≤ fuel)%nat → flood_loop fuel corner_board [(2, 2)] = Ok g') ∧
    (∀ fuel, Z.of_nat (flood_pushes fuel corner_board [(2, 2)]) ≤ 9 * 3 * 3) ∧
    (vget2 (minefield corner_board) 2 2 = Ok false → reveal corner_board 2 2 = Ok g').
Proof.
  apply (flood_terminates corner_board 2 2).
  - exact (reachable_new 3 3 1 [(0, 0)] corner_board eq_refl).
  - on_board_tac.
Defined.

(** ** Flood closure *)

Lemma path_revealed g path :
  flooded g → Forall (on_board g) path → chain path →
  Forall (λ p, count_is g p 0) (removelast path) →
  ∀ p0, head path = Some p0 → is_revealed g p0 → ∀ q, q ∈ path → is_revealed g q.
Proof.
  intros Hfl. induction path as [|p path IH]; intros Hon Hch Hzero p0 Hhead Hp0 q Hq.
  { by apply elem_of_nil in Hq. }
  injection Hhead as ->.
  apply elem_of_cons in Hq as [->|Hq]; [done|].
  destruct path as [|p1 path]; [by apply elem_of_nil in Hq|].
  apply Forall_cons in Hon as [Hon0 Hon].
  destruct Hch as [Hadj Hch].
  change (removelast (p0 :: p1 :: path)) with (p0 :: removelast (p1 :: path)) in Hzero.
  apply Forall_cons in Hzero as [Hz0 Hzero].
  apply (IH Hon Hch Hzero p1); [done| |done].
  apply (Hfl p0 p1); try done. by apply Forall_cons in Hon as [? _].
Qed.

Lemma last_elem_of {A} (l : list A) x : last l = Some x → x ∈ l.
Proof.
  induction l as [|y [|z l] IH]; simpl; [done| |].
  - intros [= ->]. apply list_elem_of_here.
  - intros H. apply list_elem_of_further. by apply IH.
Qed.

(** C5, as stated, fails when "interior" has its usual meaning (the cells
    strictly between the two ends).  On the 2x2 board with mines in two
    opposite corners, [reveal(0, 1)] reveals the cell [(0, 1)], of count 2,
    and nothing else, although [(1, 0)] is adjacent to it: a path without
    interior cells. *)
Lemma flood_closure_counterexample :
  ∃ g', reachable diagonal_board ∧
    in_bounds (rows diagonal_board) (cols diagonal_board) 0 1 ∧
    vget2 (minefield diagonal_board) 0 1 = Ok false ∧
    reveal diagonal_board 0 1 = Ok g' ∧
    head [(0, 1); (1, 0)] = Some (0, 1) ∧
    last [(0, 1); (1, 0)] = Some (1, 0) ∧
    Forall (on_board diagonal_board) [(0, 1); (1, 0)] ∧
    chain [(0, 1); (1, 0)] ∧
    Forall (λ p, count_is diagonal_board p 0) (interior [(0, 1); (1, 0)]) ∧
    vget2 (revealed g') 1 0 = Ok false.
Proof.
  eexists. split; [apply diagonal_board_reachable|].
  split; [unfold in_bounds; simpl; lia|].
  split; [reflexivity|]. split; [reflexivity|].
  split; [reflexivity|]. split; [reflexivity|].
  split; [repeat constructor; unfold in_bounds; simpl; lia|].
  split; [|split; [constructor|reflexivity]].
  simpl. split; [|done]. unfold adjacent. simpl. split_and!; [lia..|done].
Qed.

(** C5, amended. In every state of a game, after [reveal(r, c)] on a cell
    of the board that is not a mine, every cell reachable from [(r, c)] by
    a path of adjacent cells of the board on which every cell except the
    last one, the start [(r, c)] included, has count 0 is revealed.  So
    revealing a cell of a connected zero-count region reveals the region
    and its numbered border. *)
Theorem flood_closure g r c path q :
  reachable g →
  in_bounds (rows g) (cols g) r c →
  vget2 (minefield g) r c = Ok false →
  head path = Some (r, c) → last path = Some q →
  Forall (on_board g) path → chain path →
  Forall (λ p, count_is g p 0) (removelast path) →
  ∃ g', reveal g r c = Ok g' ∧ vget2 (revealed g') q.1 q.2 = Ok true.
Proof.
  intros Hreach Hb Hsafe Hhead Hlast Hon Hch Hzero.
  pose proof (reachable_inv g Hreach) as (Hwf & Hagree & Hfl & _).
  destruct (reveal_total g r c Hwf Hb) as [g' Hrev]. exists g'. split; [done|].
  pose proof (reveal_same_board _ _ _ _ Hrev) as Hs.
  apply (path_revealed g' path) with (p0 := (r, c)); try done.
  - by eapply reveal_flooded.
  - eapply Forall_impl; [exact Hon|]. intros p. by apply same_board_on_board.
  - eapply Forall_impl; [exact Hzero|]. intros p. by apply same_board_count_is.
  - by eapply reveal_target.
  - by apply last_elem_of.
Qed.

Lemma flood_closure_witness :
  ∃ g', reveal corner_board 2 2 = Ok g' ∧ vget2 (revealed g') 0 1 = Ok true.
Proof.
  apply (flood_closure corner_board 2 2 [(2, 2); (1, 2); (0, 1)] (0, 1)).
  - exact (reachable_new 3 3 1 [(0, 0)] corner_board eq_refl).
  - on_board_tac.
  - reflexivity.
  - reflexivity.
  - reflexivity.
  - on_board_tac.
  - simpl. unfold adjacent. simpl. split_and!; (lia || done).
  - repeat constructor.
Defined.

(** ** The random source *)

Lemma place_mines_more draws more M mf n mf' :
  place_mines draws M mf n = Ok mf' → place_mines (draws ++ more) M mf n = Ok mf'.
Proof.
  revert mf n. induction draws as [|[row col] draws IH]; intros mf n; simpl.
  - destruct (n <? M) eqn:E; [discriminate|]. intros [= <-].
    destruct more as [|[??] ?]; simpl; by rewrite E.
  - destruct (n <? M); [|done].
    destruct (vget2 mf row col) as [[]|]; simpl; [apply IH| |done].
    destruct (vset2 mf row col true); simpl; [apply IH|done].
Qed.

(** C6, as stated, fails: the constructor has the three parameters
    [rows_], [cols_], [num_mines_] and no random source among them; two
    constructions with the same three arguments produce different layouts
    when the generator each one seeds from [std::random_device] draws
    differently. *)
Lemma layout_determinism_counterexample :
  ∃ g1 g2,
    Minesweeper_ctor 2 2 1 [(0, 0)] = Ok g1 ∧
    Minesweeper_ctor 2 2 1 [(1, 1)] = Ok g2 ∧
    minefield g1 ≠ minefield g2.
Proof. do 2 eexists. split; [reflexivity|]. split; [reflexivity|]. discriminate. Qed.

(** C6, amended. The random source is not a parameter of the constructor:
    the generator is created inside it.  The layout is a function of
    [rows_], [cols_], [num_mines_] and of the values that generator
    delivers: two constructions with the same three arguments whose
    generators deliver the same draws until the last mine is placed build
    the same board, whatever they would deliver afterwards. *)
Theorem layout_determined_by_draws rows_ cols_ num_mines_ draws g rest1 rest2 :
  Minesweeper_ctor rows_ cols_ num_mines_ draws = Ok g →
  Minesweeper_ctor rows_ cols_ num_mines_ (draws ++ rest1) = Ok g ∧
  Minesweeper_ctor rows_ cols_ num_mines_ (draws ++ rest2) = Ok g.
Proof.
  intros H.
  assert (∀ rest, Minesweeper_ctor rows_ cols_ num_mines_ (draws ++ rest) = Ok g) as Hrest;
    [|by split].
  intros rest. unfold Minesweeper_ctor in *.
  destruct (vmake2 rows_ cols_ false) as [mf0|]; simpl in *; [|done].
  destruct (vmake2 rows_ cols_ 0) as [cnt0|]; simpl in *; [|done].
  destruct (uniform_int_distribution 0 (rows_ - 1)); simpl in *; [|done].
  destruct (uniform_int_distribution 0 (cols_ - 1)); simpl in *; [|done].
  destruct (place_mines draws num_mines_ mf0 0) as [mf|] eqn:Hmf; simpl in *; [|done].
  by rewrite (place_mines_more _ rest _ _ _ _ Hmf).
Qed.

Lemma layout_determined_by_draws_witness :
  Minesweeper_ctor 3 3 1 ([(0, 0)] ++ [(1, 1); (2, 2)]) = Ok corner_board ∧
  Minesweeper_ctor 3 3 1 ([(0, 0)] ++ [(0, 2)]) = Ok corner_board.
Proof.
  apply (layout_determined_by_draws 3 3 1 [(0, 0)] corner_board [(1, 1); (2, 2)] [(0, 2)]).
  reflexivity.
Defined.

(** ** Start-up and the session *)

Lemma print_total g : well_formed g → ∃ text, print g = Ok text.
Proof.
  intros (_ & Hr & Hc). unfold print.
  destruct (for_each_inv (λ _ _, True) (seqZ 0 (cols g)) "  "%string
              (λ out col, Ok (out +:+ pretty col +:+ " "))) as (head & -> & _);
    [done|eauto|]. simpl.
  destruct (for_each_inv (λ _ _, True) (seqZ 0 (rows g)) (head +:+ endl)
    (λ out row,
       out ← for_each (seqZ 0 (cols g)) (out +:+ pretty row +:+ " ") (λ out col,
                shown ← vget2 (revealed g) row col;
                if shown : bool then
                  count ← vget2 (counts g) row col;
                  if count =? -1 then Ok (out +:+ "* ")
                  else Ok (out +:+ pretty count +:+ " ")
                else Ok (out +:+ ". "));
       Ok (out +:+ endl))) as (text & Htext & _); [done| |eauto].
  intros _ row out _ Hrow%elem_of_seqZ.
  destruct (for_each_inv (λ _ _, True) (seqZ 0 (cols g)) (out +:+ pretty row +:+ " ")
    (λ out col,
       shown ← vget2 (revealed g) row col;
       if shown : bool then
         count ← vget2 (counts g) row col;
         if count =? -1 then Ok (out +:+ "* ")
         else Ok (out +:+ pretty count +:+ " ")
       else Ok (out +:+ ". "))) as (line & -> & _); [done| |simpl; eauto].
  intros _ col out' _ Hcol%elem_of_seqZ.
  assert (in_bounds (rows g) (cols g) row col) as Hb by (unfold in_bounds; lia).
  destruct (shape_vget2 _ _ _ _ _ Hr Hb) as [[] ->]; simpl; [|eauto].
  destruct (shape_vget2 _ _ _ _ _ Hc Hb) as [n ->]. simpl.
  destruct (n =? -1); eauto.
Qed.






(** ** The scenarios of the specification *)

Example scenario_empty_board :
  (g ← Minesweeper_ctor 3 3 0 []; g ← reveal g 1 1; won ← is_game_won g;
   Ok (revealed g, counts g, won))
  = Ok ([[true; true; true]; [true; true; true]; [true; true; true]],
        [[0; 0; 0]; [0; 0; 0]; [0; 0; 0]], true).
Proof. reflexivity. Qed.

Example scenario_corner_flood :
  (g ← reveal corner_board 2 2; won ← is_game_won g; over ← is_game_over g;
   Ok (revealed g, won, over))
  = Ok ([[false; true; true]; [true; true; true]; [true; true; true]], true, false).
Proof. reflexivity. Qed.

Example scenario_corner_mine :
  (g ← reveal corner_board 0 0; won ← is_game_won g; over ← is_game_over g;
   Ok (revealed g, won, over))
  = Ok ([[true; false; false]; [false; false; false]; [false; false; false]], false, true).
Proof. reflexivity. Qed.

Example scenario_diagonal :
  (g1 ← reveal diagonal_board 0 1; won1 ← is_game_won g1; over1 ← is_game_over g1;
   g2 ← reveal g1 1 0; won2 ← is_game_won g2;
   Ok (revealed g1, won1, over1, revealed g2, won2))
  = Ok ([[false; true]; [false; false]], false, false,
        [[false; true]; [true; false]], true).
Proof. reflexivity. Qed.

Example scenario_centre_mine :
  (g ← Minesweeper_ctor 5 5 1 [(2, 2)]; g ← reveal g 0 0; won ← is_game_won g;
   Ok (revealed g, counts g, won))
  = Ok ([[true; true; true; true; true]; [true; true; true; true; true];
         [true; true; false; true; true]; [true; true; true; true; true];
         [true; true; true; true; true]],
        [[0; 0; 0; 0; 0]; [0; 1; 1; 1; 0]; [0; 1; -1; 1; 0]; [0; 1; 1; 1; 0];
         [0; 0; 0; 0; 0]], true).
Proof. reflexivity. Qed.

(** * Further properties of the code *)

(** ** The board after construction *)

Lemma mines_around_range g p : 0 ≤ mines_around g p ≤ 8.
Proof.
  unfold mines_around. split; [lia|].
  pose proof (length_filter
    (λ d : Z * Z, on_board g (p.1 + d.1, p.2 + d.2) ∧ is_mine g (p.1 + d.1, p.2 + d.2))
    moore_offsets) as Hle.
  simpl length in Hle. lia.
Qed.

(** X1. In every state of a game, the count stored for a cell of the board
    is -1 exactly when the cell is a mine, and lies between 0 and 8
    otherwise. *)
Theorem count_sentinel_and_range g r c :
  reachable g →
  in_bounds (rows g) (cols g) r c →
  ∃ n, vget2 (counts g) r c = Ok n ∧
    (n = -1 ↔ vget2 (minefield g) r c = Ok true) ∧
    (vget2 (minefield g) r c = Ok false → 0 ≤ n ≤ 8).
Proof.
  intros (_ & Hagree & _)%reachable_inv Hb.
  pose proof (mines_around_range g (r, c)) as Hrange.
  destruct (Hagree (r, c) Hb) as [[Hmine Hn]|[Hsafe Hn]];
    unfold is_mine, is_safe, count_is in *; simpl in *.
  - exists (-1). split; [done|]. split; [done|]. congruence.
  - exists (mines_around g (r, c)). split; [done|]. split; [|done].
    split; [lia|congruence].
Qed.

Lemma count_sentinel_and_range_witness :
  ∃ n, vget2 (counts corner_board) 0 1 = Ok n ∧
    (n = -1 ↔ vget2 (minefield corner_board) 0 1 = Ok true) ∧
    (vget2 (minefield corner_board) 0 1 = Ok false → 0 ≤ n ≤ 8).
Proof.
  apply (count_sentinel_and_range corner_board 0 1).
  - exact (reachable_new 3 3 1 [(0, 0)] corner_board eq_refl).
  - on_board_tac.
Defined.

(** X2. A construction that returns has placed exactly [num_mines_] mines
    when that number is not negative, and none when it is. *)
Theorem placement_count rows_ cols_ num_mines_ draws g :
  Minesweeper_ctor rows_ cols_ num_mines_ draws = Ok g →
  Z.of_nat (mine_total (minefield g)) = Z.max 0 num_mines_.
Proof. intros H. apply ctor_Ok in H. tauto. Qed.

Lemma placement_count_witness :
  Z.of_nat (mine_total (minefield diagonal_board)) = Z.max 0 2.
Proof.
  apply (placement_count 2 2 2 [(0, 0); (0, 0); (1, 1); (0, 1)] diagonal_board).
  reflexivity.
Defined.

Lemma place_mines_drawn draws M mf n mf' r c :
  place_mines draws M mf n = Ok mf' →
  vget2 mf' r c = Ok true →
  vget2 mf r c = Ok true ∨ (r, c) ∈ draws.
Proof.
  revert mf n. induction draws as [|[row col] draws IH]; intros mf n; simpl.
  - destruct (n <? M); [discriminate|]. intros [= <-]. by left.
  - destruct (n <? M); [|intros [= <-]; by left].
    destruct (vget2 mf row col) as [[]|] eqn:E; simpl; [| |discriminate].
    + intros H Hm. destruct (IH _ _ H Hm) as [?|?]; [by left|].
      right. by apply list_elem_of_further.
    + destruct (vset2 mf row col true) as [mf1|] eqn:E1; simpl; [|discriminate].
      intros H Hm. destruct (IH _ _ H Hm) as [H1|?]; [|right; by apply list_elem_of_further].
      rewrite (vget2_vset2 _ _ _ _ _ r c E1) in H1.
      destruct (decide (r = row ∧ c = col)) as [[-> ->]|?]; [|by left].
      right. apply list_elem_of_here.
Qed.

(** X3. The constructor puts mines only on cells that its generator drew:
    every mine of the constructed board is one of the draws. *)
Theorem mines_are_drawn rows_ cols_ num_mines_ draws g r c :
  Minesweeper_ctor rows_ cols_ num_mines_ draws = Ok g →
  vget2 (minefield g) r c = Ok true →
  (r, c) ∈ draws.
Proof.
  unfold Minesweeper_ctor. intros H Hmine.
  apply bind_Ok in H as (mf0 & Hmf0 & H).
  apply bind_Ok in H as (rev0 & _ & H).
  apply bind_Ok in H as (cnt0 & _ & H).
  apply bind_Ok in H as ([] & _ & H).
  apply bind_Ok in H as ([] & _ & H).
  apply bind_Ok in H as (mf & Hmf & H).
  apply bind_Ok in H as (cnt & _ & [= <-]). simpl in Hmine.
  destruct (place_mines_drawn _ _ _ _ _ r c Hmf Hmine) as [H0|?]; [|done].
  apply vmake2_Ok in Hmf0 as [_ Hall]. by apply Hall in H0.
Qed.

Lemma mines_are_drawn_witness : (0, 0) ∈ [(0, 0); (2, 1)].
Proof.
  apply (mines_are_drawn 3 3 1 [(0, 0); (2, 1)] corner_board 0 0); reflexivity.
Defined.

(** ** The end-of-game tests *)

(** X4. In every state of a game [is_game_over] returns, and it returns
    true exactly when some cell of the board is a mine and is revealed. *)
Theorem game_over_iff g :
  reachable g →
  ∃ b, is_game_over g = Ok b ∧
    (b = true ↔ ∃ r c, in_bounds (rows g) (cols g) r c ∧
                       vget2 (minefield g) r c = Ok true ∧
                       vget2 (revealed g) r c = Ok true).
Proof.
  intros (Hwf & _)%reachable_inv.
  destruct (is_game_over_spec g Hwf) as (b & Hb & Hiff).
  exists b. split; [done|]. rewrite Hiff. split.
  - intros ([r c] & ? & ? & ?). by exists r, c.
  - intros (r & c & ? & ? & ?). by exists (r, c).
Qed.

Lemma game_over_iff_witness :
  ∃ b, is_game_over corner_board = Ok b ∧
    (b = true ↔ ∃ r c, in_bounds (rows corner_board) (cols corner_board) r c ∧
                       vget2 (minefield corner_board) r c = Ok true ∧
                       vget2 (revealed corner_board) r c = Ok true).
Proof.
  apply (game_over_iff corner_board).
  exact (reachable_new 3 3 1 [(0, 0)] corner_board eq_refl).
Defined.

(** X5. In every state of a game [is_game_won] returns, and it returns
    true exactly when every cell of the board that is not a mine is
    revealed. *)
Theorem game_won_iff g :
  reachable g →
  ∃ b, is_game_won g = Ok b ∧
    (b = true ↔ ∀ r c, in_bounds (rows g) (cols g) r c →
                       vget2 (minefield g) r c = Ok false →
                       vget2 (revealed g) r c = Ok true).
Proof.
  intros (Hwf & _)%reachable_inv.
  destruct (is_game_won_spec g Hwf) as (b & Hb & Hiff).
  exists b. split; [done|]. rewrite Hiff. split.
  - intros H r c. apply (H (r, c)).
  - intros H [r c]. apply H.
Qed.

Lemma game_won_iff_witness :
  ∃ b, is_game_won corner_board = Ok b ∧
    (b = true ↔ ∀ r c, in_bounds (rows corner_board) (cols corner_board) r c →
                       vget2 (minefield corner_board) r c = Ok false →
                       vget2 (revealed corner_board) r c = Ok true).
Proof.
  apply (game_won_iff corner_board).
  exact (reachable_new 3 3 1 [(0, 0)] corner_board eq_refl).
Defined.

(** ** What [reveal] leaves alone *)

(** X6. Whatever the state and the coordinates, a call of [reveal] that
    returns has changed nothing but [revealed]: the dimensions, the mine
    count, the mines and the counts are as before. *)
Theorem reveal_frame g r c g' :
  reveal g r c = Ok g' →
  rows g' = rows g ∧ cols g' = cols g ∧ num_mines g' = num_mines g ∧
  minefield g' = minefield g ∧ counts g' = counts g.
Proof. apply reveal_same_board. Qed.

Lemma reveal_frame_witness :
  ∃ g', reveal corner_board 2 2 = Ok g' ∧
    rows g' = 3 ∧ cols g' = 3 ∧ num_mines g' = 1 ∧
    minefield g' = minefield corner_board ∧ counts g' = counts corner_board.
Proof.
  eexists. split; [reflexivity|].
  apply (reveal_frame corner_board 2 2). reflexivity.
Defined.

(** X7. In every state of a game, [reveal] on a hidden cell of the board
    that is not a mine and whose count is not zero reveals that cell and
    changes the revealed flag of no other cell: there is no flood. *)
Theorem reveal_numbered g r c n :
  reachable g →
  vget2 (minefield g) r c = Ok false →
  vget2 (revealed g) r c = Ok false →
  vget2 (counts g) r c = Ok n → n ≠ 0 →
  ∃ g', reveal g r c = Ok g' ∧
    vget2 (revealed g') r c = Ok true ∧
    ∀ r' c', (r', c') ≠ (r, c) → vget2 (revealed g') r' c' = vget2 (revealed g) r' c'.
Proof.
  intros (Hwf & _)%reachable_inv Hsafe Hhid Hn Hne.
  destruct Hwf as (_ & Hr & _).
  pose proof (shape_vget2_inv _ _ _ _ _ _ Hr Hhid) as Hb.
  destruct (shape_vset2_Ok _ _ _ _ _ true Hr Hb) as [rev' Hset].
  exists (with_revealed g rev'). split_and!.
  - unfold reveal. rewrite Hsafe. cbn [mbind result_bind]. cbv zeta.
    unfold flood_budget. rewrite Nat.add_1_r. cbn [flood_loop].
    assert (flood_step g [(r, c)] = Ok (with_revealed g rev', [])) as ->.
    { unfold flood_step. rewrite Hhid. cbn [mbind result_bind].
      rewrite Hset. cbn [mbind result_bind]. cbv zeta.
      change (counts (with_revealed g rev')) with (counts g).
      rewrite Hn. cbn [mbind result_bind]. by destruct (Z.eqb_spec n 0). }
    cbn [mbind result_bind]. apply flood_loop_nil.
  - simpl. by eapply vget2_vset2_eq.
  - intros r' c' Hother. simpl. by eapply vget2_vset2_ne.
Qed.

Lemma reveal_numbered_witness :
  ∃ g', reveal corner_board 1 1 = Ok g' ∧
    vget2 (revealed g') 1 1 = Ok true ∧
    ∀ r' c', (r', c') ≠ (1, 1) →
      vget2 (revealed g') r' c' = vget2 (revealed corner_board) r' c'.
Proof.
  apply (reveal_numbered corner_board 1 1 1).
  - exact (reachable_new 3 3 1 [(0, 0)] corner_board eq_refl).
  - reflexivity.
  - reflexivity.
  - reflexivity.
  - done.
Defined.

(** ** The exact extent of the flood *)

Lemma offset_adjacent p d :
  d ∈ moore_offsets → adjacent p (p.1 + d.1, p.2 + d.2).
Proof.
  unfold moore_offsets. rewrite !elem_of_cons, elem_of_nil.
  destruct p as [r c]. unfold adjacent. simpl.
  intros H. repeat destruct H as [->|H]; try done; simpl;
    (split_and!; [lia|lia|intros [= ? ?]; lia]).
Qed.

Lemma zero_reach_on_board g p0 q : on_board g p0 → zero_reach g p0 q → on_board g q.
Proof. intros H0. by destruct 1. Qed.

(** The flood stays within what it can get to. *)
Lemma flood_loop_within fuel g p0 st g' :
  Forall (zero_reach g p0) st →
  flood_loop fuel g st = Ok g' →
  ∀ q, is_revealed g' q → is_revealed g q ∨ zero_reach g p0 q.
Proof.
  intros Hst Hl.
  enough (same_board g g' ∧ Forall (zero_reach g p0) [] ∧
          ∀ q, is_revealed g' q → is_revealed g q ∨ zero_reach g p0 q) by tauto.
  revert Hl.
  apply (flood_loop_inv (λ g1 st1, same_board g g1 ∧ Forall (zero_reach g p0) st1 ∧
           ∀ q, is_revealed g1 q → is_revealed g q ∨ zero_reach g p0 q));
    [|split_and!; auto using same_board_refl].
  intros g1 x st1 g2 st2 (Hs1 & Hst1 & Hrev1) Hstep.
  apply flood_step_spec in Hstep as (Hs2 & _ & Hrev2 & Hcase).
  apply Forall_cons in Hst1 as [Hx Hst1].
  split; [by eapply same_board_trans|].
  split; [|intros q [->|Hq]%Hrev2; [by right|by apply Hrev1]].
  destruct Hcase as [(_ & _ & ->)|(_ & _ & [[-> _]|[Hzero ->]])]; [done..|].
  destruct (push_neighbours_spec g1 x.1 x.2 st1) as (nb & -> & _ & Hnb).
  apply Forall_app. split; [|done].
  apply Forall_forall. intros q (d & Hd & Hq & ->)%Hnb.
  apply block_in_moore in Hd as [->|Hd].
  - destruct x as [r c]. simpl. by rewrite !Z.add_0_r.
  - apply (zero_reach_step g p0 x); try done.
    + by apply (same_board_count_is g g1 Hs1).
    + by apply offset_adjacent.
    + by apply (same_board_on_board g g1 Hs1).
Qed.

(** X8. In every state of a game, after [reveal(r, c)] on a cell of the
    board that is not a mine, the revealed cells are exactly the cells
    revealed before together with the cells the flood can get to from
    [(r, c)]: [(r, c)] itself and, step by step, the cells of the board
    adjacent to a cell of count zero already got to. *)
Theorem flood_extent g r c :
  reachable g →
  in_bounds (rows g) (cols g) r c →
  vget2 (minefield g) r c = Ok false →
  ∃ g', reveal g r c = Ok g' ∧
    ∀ r' c', vget2 (revealed g') r' c' = Ok true ↔
             vget2 (revealed g) r' c' = Ok true ∨ zero_reach g (r, c) (r', c').
Proof.
  intros Hreach Hb Hsafe.
  pose proof (reachable_inv g Hreach) as (Hwf & Hagree & Hfl & _).
  destruct (reveal_total g r c Hwf Hb) as [g' Hrev]. exists g'. split; [done|].
  pose proof (reveal_same_board _ _ _ _ Hrev) as Hs.
  pose proof (reveal_flooded _ _ _ _ Hwf Hagree Hfl Hrev) as Hfl'.
  intros r' c'. split.
  - intros Hshown. apply reveal_inv in Hrev as [(Hmine & _)|[_ Hl]].
    + unfold is_mine in Hmine. simpl in Hmine. congruence.
    + apply (flood_loop_within _ _ (r, c) _ _) with (q := (r', c')) in Hl; [done| |done].
      apply Forall_singleton. constructor.
  - intros [Hold|Hreachable].
    + by apply (reveal_monotone _ _ _ _ (r', c') Hrev).
    + change (is_revealed g' (r', c')).
      induction Hreachable as [|q q' Hq IH Hzero Hadj Hq'].
      * by eapply reveal_target.
      * apply (Hfl' q q'); try done.
        -- apply (same_board_on_board g g' Hs).
           by apply (zero_reach_on_board g (r, c) q).
        -- by apply (same_board_count_is g g' Hs).
        -- by apply (same_board_on_board g g' Hs).
Qed.

Lemma flood_extent_witness :
  ∃ g', reveal corner_board 2 2 = Ok g' ∧
    ∀ r' c', vget2 (revealed g') r' c' = Ok true ↔
             vget2 (revealed corner_board) r' c' = Ok true ∨
             zero_reach corner_board (2, 2) (r', c').
Proof.
  apply (flood_extent corner_board 2 2).
  - exact (reachable_new 3 3 1 [(0, 0)] corner_board eq_refl).
  - on_board_tac.
  - reflexivity.
Defined.

(** ** Losing and winning *)

Lemma reveal_mines_revealed g r c g' q :
  well_formed g → counts_agree g →
  reveal g r c = Ok g' →
  is_mine g q → is_revealed g' q → is_revealed g q ∨ q = (r, c).
Proof.
  intros Hwf Hagree Hrev Hmine Hshown.
  apply reveal_inv in Hrev as [(_ & rev' & Hset & ->)|[Hsafe Hl]].
  - apply (reveal_mine_revealed _ _ _ _ _ Hset) in Hshown. tauto.
  - pose proof Hwf as (Hm & _).
    assert (on_board g (r, c)) as Hb by (by eapply shape_vget2_inv).
    assert (is_revealed g q ∨ is_safe g q) as [?|Hs]; [|by left|].
    { eapply flood_loop_safe; [exact Hwf|exact Hagree| | |exact Hl|exact Hshown];
        by apply Forall_singleton. }
    by destruct (safe_not_mine g q).
Qed.

Lemma reveal_all_mines_revealed g cells g' q :
  well_formed g → counts_agree g →
  reveal_all g cells = Ok g' →
  is_mine g q → is_revealed g' q → is_revealed g q ∨ q ∈ cells.
Proof.
  revert g. induction cells as [|[r c] cells IH]; intros g Hwf Hagree; simpl.
  - intros [= <-] _ ?. by left.
  - intros H Hmine Hshown. apply bind_Ok in H as (g1 & H1 & Hall).
    pose proof (reveal_same_board _ _ _ _ H1) as Hs.
    destruct (IH g1) as [Hq|Hq]; try done.
    + by eapply reveal_well_formed.
    + by eapply same_board_counts_agree.
    + by apply (same_board_is_mine g g1 Hs).
    + destruct (reveal_mines_revealed g r c g1 q) as [?| ->]; try done; [by left|].
      right. apply list_elem_of_here.
    + right. by apply list_elem_of_further.
Qed.

Lemma reveal_all_targets g cells g' p :
  reveal_all g cells = Ok g' → p ∈ cells → is_revealed g' p.
Proof.
  revert g. induction cells as [|[r c] cells IH]; intros g; simpl.
  - by intros _ ?%elem_of_nil.
  - intros H Hp. apply bind_Ok in H as (g1 & H1 & Hall).
    apply elem_of_cons in Hp as [->|Hp]; [|by eapply IH].
    eapply reveal_all_monotone; [exact Hall|]. by eapply reveal_target.
Qed.

(** X9. Starting from a constructed board, after any sequence of [reveal]
    calls on cells of the board, [is_game_over] returns true exactly when
    one of the cells passed to [reveal] is a mine: the flood never loses a
    game, only the choice of a mine does. *)
Theorem lost_iff_mine_chosen rows_ cols_ num_mines_ draws g0 cells :
  Minesweeper_ctor rows_ cols_ num_mines_ draws = Ok g0 →
  Forall (on_board g0) cells →
  ∃ g' b, reveal_all g0 cells = Ok g' ∧ is_game_over g' = Ok b ∧
    (b = true ↔ ∃ p, p ∈ cells ∧ vget2 (minefield g0) p.1 p.2 = Ok true).
Proof.
  intros Hnew Hon.
  pose proof (ctor_Ok _ _ _ _ _ Hnew) as (_ & _ & _ & _ & _ & Hwf & Hagree & Hhid & _).
  destruct (reveal_all_total g0 cells Hwf Hon) as (g' & Hall & Hwf' & Hs).
  destruct (is_game_over_spec g' Hwf') as (b & Hover & Hiff).
  exists g', b. split; [done|]. split; [done|]. rewrite Hiff. split.
  - intros (p & Hp & Hmine & Hshown).
    apply (same_board_on_board g0 g' Hs) in Hp.
    apply (same_board_is_mine g0 g' Hs) in Hmine.
    destruct (reveal_all_mines_revealed g0 cells g' p) as [Hold|Hin]; try done.
    + destruct (hidden_not_revealed g0 p); auto.
    + by exists p.
  - intros (p & Hp & Hmine). exists p. split_and!.
    + apply (same_board_on_board g0 g' Hs). by apply (proj1 (Forall_forall _ _) Hon).
    + by apply (same_board_is_mine g0 g' Hs).
    + by eapply reveal_all_targets.
Qed.

Lemma lost_iff_mine_chosen_witness :
  ∃ g' b, reveal_all corner_board [(2, 2); (0, 1)] = Ok g' ∧ is_game_over g' = Ok b ∧
    (b = true ↔ ∃ p, p ∈ [(2, 2); (0, 1)] ∧
                     vget2 (minefield corner_board) p.1 p.2 = Ok true).
Proof.
  apply (lost_iff_mine_chosen 3 3 1 [(0, 0)] corner_board [(2, 2); (0, 1)]).
  - reflexivity.
  - on_board_tac.
Defined.

(** X10. In every state of a game, a call of [reveal] on a cell of the
    board keeps a lost game lost and a won game won. *)
Theorem outcome_stable g r c :
  reachable g →
  in_bounds (rows g) (cols g) r c →
  ∃ g', reveal g r c = Ok g' ∧
    (is_game_over g = Ok true → is_game_over g' = Ok true) ∧
    (is_game_won g = Ok true → is_game_won g' = Ok true).
Proof.
  intros (Hwf & _)%reachable_inv Hb.
  destruct (reveal_total g r c Hwf Hb) as [g' Hrev]. exists g'. split; [done|].
  pose proof (reveal_well_formed _ _ _ _ Hwf Hrev) as Hwf'.
  pose proof (reveal_same_board _ _ _ _ Hrev) as Hs.
  destruct (is_game_over_spec g Hwf) as (b1 & Ho1 & Hi1).
  destruct (is_game_over_spec g' Hwf') as (b2 & Ho2 & Hi2).
  destruct (is_game_won_spec g Hwf) as (w1 & Hw1 & Hj1).
  destruct (is_game_won_spec g' Hwf') as (w2 & Hw2 & Hj2).
  rewrite Ho1, Ho2, Hw1, Hw2. split.
  - intros [= ->]. f_equal. apply Hi2.
    destruct (proj1 Hi1 eq_refl) as (p & Hp & Hmine & Hshown). exists p. split_and!.
    + by apply (same_board_on_board g g' Hs).
    + by apply (same_board_is_mine g g' Hs).
    + by eapply reveal_monotone.
  - intros [= ->]. f_equal. apply Hj2. intros p Hp Hsafe.
    eapply reveal_monotone; [exact Hrev|]. apply (proj1 Hj1 eq_refl).
    + by apply (same_board_on_board g g' Hs).
    + by apply (same_board_is_safe g g' Hs).
Qed.

Lemma outcome_stable_witness :
  (∃ g', reveal lost_corner_board 2 2 = Ok g' ∧ is_game_over g' = Ok true) ∧
  (∃ g', reveal won_corner_board 0 0 = Ok g' ∧ is_game_won g' = Ok true).
Proof.
  split.
  - destruct (outcome_stable lost_corner_board 2 2) as (g' & Hrev & Hover & _).
    + exact (reachable_reveal corner_board 0 0 lost_corner_board
               (reachable_new 3 3 1 [(0, 0)] corner_board eq_refl) eq_refl).
    + on_board_tac.
    + exists g'. split; [exact Hrev|]. apply Hover. reflexivity.
  - destruct (outcome_stable won_corner_board 0 0) as (g' & Hrev & _ & Hwon).
    + exact (reachable_reveal corner_board 2 2 won_corner_board
               (reachable_new 3 3 1 [(0, 0)] corner_board eq_refl) eq_refl).
    + on_board_tac.
    + exists g'. split; [exact Hrev|]. apply Hwon. reflexivity.
Defined.

(** ** Rendering *)

Lemma append_assoc (s1 s2 s3 : string) : (s1 +:+ s2) +:+ s3 = s1 +:+ s2 +:+ s3.
Proof.
  induction s1 as [|a s1 IH]; [done|].
  change (String a ((s1 +:+ s2) +:+ s3) = String a (s1 +:+ s2 +:+ s3)). by rewrite IH.
Qed.

Lemma append_nil_r (s : string) : s +:+ "" = s.
Proof.
  induction s as [|a s IH]; [done|].
  change (String a (s +:+ "") = String a s). by rewrite IH.
Qed.

(** A loop that appends a text for each value appends their concatenation. *)
Lemma for_each_append {A} (f : A → string) (l : list A) (out : string) body :
  (∀ out x, x ∈ l → body out x = Ok (out +:+ f x)) →
  for_each l out body = Ok (out +:+ join (f <$> l)).
Proof.
  revert out. induction l as [|x l IH]; intros out Hbody; csimpl.
  - by rewrite append_nil_r.
  - rewrite Hbody by apply list_elem_of_here. simpl.
    rewrite IH; [by rewrite append_assoc|].
    intros out' y Hy. apply Hbody. by apply list_elem_of_further.
Qed.

Lemma fmap_ext_in {A B} (f g : A → B) (l : list A) :
  (∀ x, x ∈ l → f x = g x) → f <$> l = g <$> l.
Proof.
  induction l as [|x l IH]; intros H; csimpl; [done|].
  rewrite H by apply list_elem_of_here. f_equal.
  apply IH. intros y Hy. apply H. by apply list_elem_of_further.
Qed.

Lemma board_text_ext R C cell1 cell2 :
  (∀ row col, in_bounds R C row col → cell1 row col = cell2 row col) →
  board_text R C cell1 = board_text R C cell2.
Proof.
  intros H. unfold board_text. do 3 f_equal. f_equal.
  apply fmap_ext_in. intros row Hrow%elem_of_seqZ. do 2 f_equal. f_equal. f_equal.
  apply fmap_ext_in. intros col Hcol%elem_of_seqZ. apply H. unfold in_bounds. lia.
Qed.

(** The two loops of [print] write the board cell by cell. *)
Lemma print_format g :
  well_formed g → print g = Ok (board_text (rows g) (cols g) (cell_text g)).
Proof.
  intros (_ & Hr & Hc). unfold print, board_text.
  rewrite (for_each_append (λ col, pretty col +:+ " ")) by done.
  cbn [mbind result_bind]. cbv zeta.
  rewrite (for_each_append
    (λ row, pretty row +:+ " " +:+ join (cell_text g row <$> seqZ 0 (cols g)) +:+ endl)).
  { by rewrite !append_assoc. }
  intros out row Hrow%elem_of_seqZ.
  rewrite (for_each_append (cell_text g row)).
  { cbn [mbind result_bind]. by rewrite !append_assoc. }
  intros out' col Hcol%elem_of_seqZ. unfold cell_text.
  assert (in_bounds (rows g) (cols g) row col) as Hb by (unfold in_bounds; lia).
  destruct (shape_vget2 _ _ _ _ _ Hr Hb) as [[] ->]; cbn [mbind result_bind]; [|done].
  destruct (shape_vget2 _ _ _ _ _ Hc Hb) as [n ->]. cbn [mbind result_bind].
  by destruct (n =? -1).
Qed.

(** X11. In every state of a game, [print] writes the line of column
    numbers and then, for each row, its number and its cells: a hidden
    cell as [". "], a revealed mine as ["* "], and a revealed cell that is
    not a mine as the number of mines around it followed by a space. *)
Theorem print_shows_board g :
  reachable g →
  print g = Ok (board_text (rows g) (cols g) (cell_view g)).
Proof.
  intros (Hwf & Hagree & _)%reachable_inv.
  rewrite (print_format g Hwf). f_equal.
  apply board_text_ext. intros row col Hb. unfold cell_text, cell_view.
  destruct (vget2 (revealed g) row col) as [[]|]; try done.
  destruct (Hagree (row, col) Hb) as [[Hmine Hn]|[Hsafe Hn]];
    unfold is_mine, is_safe, count_is in *; simpl in *; rewrite Hn.
  - by rewrite Hmine.
  - rewrite Hsafe. pose proof (mines_around_range g (row, col)).
    by destruct (Z.eqb_spec (mines_around g (row, col)) (-1)); [lia|].
Qed.

Lemma print_shows_board_witness :
  print corner_board = Ok (board_text 3 3 (cell_view corner_board)).
Proof.
  apply (print_shows_board corner_board).
  exact (reachable_new 3 3 1 [(0, 0)] corner_board eq_refl).
Defined.

(** X12. [print] shows nothing of a hidden cell: two well-formed states
    of the same dimensions with the same revealed flags, whose counts
    agree on the revealed cells, are printed as the same text, whatever
    their mines and their other counts are. *)
Theorem print_hides_unrevealed g1 g2 :
  well_formed g1 → well_formed g2 →
  rows g2 = rows g1 → cols g2 = cols g1 → revealed g2 = revealed g1 →
  (∀ r c, vget2 (revealed g1) r c = Ok true →
          vget2 (counts g2) r c = vget2 (counts g1) r c) →
  print g2 = print g1.
Proof.
  intros Hwf1 Hwf2 Hr Hc Hrev Hcnt.
  rewrite (print_format g1 Hwf1), (print_format g2 Hwf2), Hr, Hc. f_equal.
  apply board_text_ext. intros row col _. unfold cell_text. rewrite Hrev.
  destruct (vget2 (revealed g1) row col) as [[]|] eqn:E; try done.
  by rewrite (Hcnt row col E).
Qed.

Lemma print_hides_unrevealed_witness : print far_corner_board = print corner_board.
Proof.
  apply (print_hides_unrevealed corner_board far_corner_board).
  - exact (ctor_well_formed 3 3 1 [(0, 0)] corner_board eq_refl).
  - exact (ctor_well_formed 3 3 1 [(2, 2)] far_corner_board eq_refl).
  - reflexivity.
  - reflexivity.
  - reflexivity.
  - intros r c H. exfalso.
    destruct (proj1 (vget2_Ok _ _ _ _) H) as (_ & _ & row & Hrow & Hx).
    destruct (Z.to_nat r) as [|[|[|?]]]; simpl in Hrow; try discriminate;
      injection Hrow as <-;
      destruct (Z.to_nat c) as [|[|[|?]]]; simpl in Hx; discriminate.
Defined.

(** ** One turn of the session *)

(** X13. In a game that is not over, when the pair read from the input
    names a mine while some cell that is not a mine is still hidden, the
    session writes the prompt, the board after the reveal and the message
    of defeat, and ends there, whatever input is left. *)
Theorem session_loss g r c q :
  reachable g →
  is_game_over g = Ok false →
  vget2 (minefield g) r c = Ok true →
  on_board g q → is_safe g q → is_hidden g q →
  ∃ g' board, reveal g r c = Ok g' ∧ print g' = Ok board ∧
    ∀ input out,
      session g (r :: c :: input) out =
      Ok (((out +:+ "Enter row and column to reveal: ") +:+ board) +:+
          "You Lost! Game over." +:+ endl).
Proof.
  intros Hreach Hover Hmine Hq Hsafe Hhid.
  pose proof (reachable_inv g Hreach) as (Hwf & _). pose proof Hwf as (Hm & Hr & _).
  pose proof (shape_vget2_inv _ _ _ _ _ _ Hm Hmine) as Hb.
  destruct (shape_vset2_Ok _ _ _ _ _ true Hr Hb) as [rev' Hset].
  assert (reveal g r c = Ok (with_revealed g rev')) as Hrev.
  { unfold reveal. rewrite Hmine. simpl. by rewrite Hset. }
  pose proof (well_formed_with_revealed _ _ _ _ _ Hwf Hset) as Hwf'.
  destruct (print_total _ Hwf') as [board Hboard].
  exists (with_revealed g rev'), board. split; [done|]. split; [done|].
  intros input out. cbn [session]. rewrite Hover. cbn [mbind result_bind]. cbv zeta.
  rewrite Hrev. cbn [mbind result_bind]. rewrite Hboard. cbn [mbind result_bind].
  destruct (is_game_won_spec _ Hwf') as (won & -> & Hwon). cbn [mbind result_bind].
  destruct won.
  { exfalso. apply (hidden_not_revealed g q Hhid).
    pose proof (proj1 Hwon eq_refl q Hq Hsafe) as Hshown.
    apply (reveal_mine_revealed _ _ _ _ _ Hset) in Hshown as [->|?]; [|done].
    by destruct (safe_not_mine g (r, c)). }
  destruct (is_game_over_spec _ Hwf') as (over & -> & Hiff). cbn [mbind result_bind].
  assert (over = true) as ->; [|done].
  apply Hiff. exists (r, c). split_and!; try done.
  apply (reveal_mine_revealed _ _ _ _ _ Hset). by left.
Qed.

Lemma session_loss_witness :
  ∃ g' board, reveal corner_board 0 0 = Ok g' ∧ print g' = Ok board ∧
    ∀ input out,
      session corner_board (0 :: 0 :: input) out =
      Ok (((out +:+ "Enter row and column to reveal: ") +:+ board) +:+
          "You Lost! Game over." +:+ endl).
Proof.
  apply (session_loss corner_board 0 0 (1, 1)).
  - exact (reachable_new 3 3 1 [(0, 0)] corner_board eq_refl).
  - reflexivity.
  - reflexivity.
  - on_board_tac.
  - reflexivity.
  - reflexivity.
Defined.

(** X14. In a game that is not over, when the pair read from the input
    names a cell of the board that is not a mine, the session never
    reports a defeat: it writes the prompt and the board after the reveal,
    then either the message of victory, when every cell that is not a mine
    is now revealed, or nothing more before going on with the rest of the
    input from the new state. *)
Theorem session_safe_turn g r c :
  reachable g →
  is_game_over g = Ok false →
  vget2 (minefield g) r c = Ok false →
  ∃ g' board won, reveal g r c = Ok g' ∧ print g' = Ok board ∧
    is_game_won g' = Ok won ∧
    ∀ input out,
      session g (r :: c :: input) out =
      if won then
        Ok (((out +:+ "Enter row and column to reveal: ") +:+ board) +:+
            "Congratulations! You won the game!" +:+ endl)
      else
        session g' input ((out +:+ "Enter row and column to reveal: ") +:+ board).
Proof.
  intros Hreach Hover Hsafe.
  pose proof (reachable_inv g Hreach) as (Hwf & Hagree & _). pose proof Hwf as (Hm & _).
  pose proof (shape_vget2_inv _ _ _ _ _ _ Hm Hsafe) as Hb.
  destruct (reveal_total g r c Hwf Hb) as [g' Hrev].
  pose proof (reveal_well_formed _ _ _ _ Hwf Hrev) as Hwf'.
  pose proof (reveal_same_board _ _ _ _ Hrev) as Hs.
  destruct (print_total _ Hwf') as [board Hboard].
  destruct (is_game_won_spec _ Hwf') as (won & Hwon & _).
  exists g', board, won. split_and!; try done.
  assert (is_game_over g' = Ok false) as Hover'.
  { destruct (is_game_over_spec g Hwf) as (b & Hb1 & Hiff).
    destruct (is_game_over_spec g' Hwf') as (b' & Hb2 & Hiff').
    rewrite Hb2. f_equal. destruct b'; [|done].
    destruct (proj1 Hiff' eq_refl) as (p & Hp & Hmine & Hshown).
    apply (same_board_on_board g g' Hs) in Hp.
    apply (same_board_is_mine g g' Hs) in Hmine.
    destruct (reveal_mines_revealed g r c g' p) as [Hold| ->]; try done.
    - assert (b = true) as -> by (apply Hiff; eauto). congruence.
    - by destruct (safe_not_mine g (r, c)). }
  intros input out. cbn [session]. rewrite Hover. cbn [mbind result_bind]. cbv zeta.
  rewrite Hrev. cbn [mbind result_bind]. rewrite Hboard. cbn [mbind result_bind].
  rewrite Hwon. cbn [mbind result_bind]. destruct won; [done|].
  by rewrite Hover'.
Qed.

Lemma session_safe_turn_witness :
  ∃ g' board won, reveal diagonal_board 0 1 = Ok g' ∧ print g' = Ok board ∧
    is_game_won g' = Ok won ∧
    ∀ input out,
      session diagonal_board (0 :: 1 :: input) out =
      if won then
        Ok (((out +:+ "Enter row and column to reveal: ") +:+ board) +:+
            "Congratulations! You won the game!" +:+ endl)
      else
        session g' input ((out +:+ "Enter row and column to reveal: ") +:+ board).
Proof.
  apply (session_safe_turn diagonal_board 0 1).
  - exact (reachable_new 2 2 2 [(0, 0); (1, 1)] diagonal_board eq_refl).
  - reflexivity.
  - reflexivity.
Defined.

(** X15. The session tests for a win before it tests for a loss: in a
    game that is not over but in which every cell that is not a mine is
    already revealed (a board made of mines only, before the first turn),
    any pair on the board, a mine included, ends the session with the
    message of victory. *)
Theorem session_win_before_loss g r c :
  reachable g →
  is_game_over g = Ok false →
  is_game_won g = Ok true →
  in_bounds (rows g) (cols g) r c →
  ∃ g' board, reveal g r c = Ok g' ∧ print g' = Ok board ∧
    ∀ input out,
      session g (r :: c :: input) out =
      Ok (((out +:+ "Enter row and column to reveal: ") +:+ board) +:+
          "Congratulations! You won the game!" +:+ endl).
Proof.
  intros Hreach Hover Hwon Hb.
  pose proof (reachable_inv g Hreach) as (Hwf & _).
  destruct (reveal_total g r c Hwf Hb) as [g' Hrev].
  pose proof (reveal_well_formed _ _ _ _ Hwf Hrev) as Hwf'.
  pose proof (reveal_same_board _ _ _ _ Hrev) as Hs.
  destruct (print_total _ Hwf') as [board Hboard].
  exists g', board. split; [done|]. split; [done|].
  assert (is_game_won g' = Ok true) as Hwon'.
  { destruct (is_game_won_spec g Hwf) as (w1 & Hw1 & Hj1).
    destruct (is_game_won_spec g' Hwf') as (w2 & Hw2 & Hj2).
    rewrite Hw2. f_equal. apply Hj2. intros p Hp Hsafe.
    eapply reveal_monotone; [exact Hrev|].
    assert (w1 = true) as -> by congruence. apply (proj1 Hj1 eq_refl).
    - by apply (same_board_on_board g g' Hs).
    - by apply (same_board_is_safe g g' Hs). }
  intros input out. cbn [session]. rewrite Hover. cbn [mbind result_bind]. cbv zeta.
  rewrite Hrev. cbn [mbind result_bind]. rewrite Hboard. cbn [mbind result_bind].
  by rewrite Hwon'.
Qed.

Lemma session_win_before_loss_witness :
  ∃ g' board, reveal lone_mine_board 0 0 = Ok g' ∧ print g' = Ok board ∧
    ∀ input out,
      session lone_mine_board (0 :: 0 :: input) out =
      Ok (((out +:+ "Enter row and column to reveal: ") +:+ board) +:+
          "Congratulations! You won the game!" +:+ endl).
Proof.
  apply (session_win_before_loss lone_mine_board 0 0).
  - exact (reachable_new 1 1 1 [(0, 0)] lone_mine_board eq_refl).
  - reflexivity.
  - reflexivity.
  - on_board_tac.
Defined.

(** ** Repeated draws *)

Lemma place_mines_done draws M mf n : M ≤ n → place_mines draws M mf n = Ok mf.
Proof. intros H. destruct draws as [|[??] ?]; simpl; by destruct (Z.ltb_spec n M); try lia. Qed.

Lemma place_mines_repeat pre d post M mf n :
  d ∈ pre ∨ vget2 mf d.1 d.2 = Ok true →
  place_mines (pre ++ d :: post) M mf n = place_mines (pre ++ post) M mf n.
Proof.
  revert mf n. induction pre as [|[row col] pre IH]; intros mf n Hd.
  - destruct Hd as [[]%elem_of_nil|Hd]. destruct d as [r c]. simpl in *.
    destruct (Z.ltb_spec n M); [|by rewrite place_mines_done].
    by rewrite Hd.
  - simpl. destruct (n <? M); [|done].
    destruct (vget2 mf row col) as [[]|] eqn:E; simpl; [| |done].
    + apply IH. destruct Hd as [[->|?]%elem_of_cons|?]; auto.
    + destruct (vset2 mf row col true) as [mf1|] eqn:E1; simpl; [|done].
      apply IH. destruct Hd as [[->|?]%elem_of_cons|Hd]; auto; right.
      * by eapply vget2_vset2_eq.
      * rewrite (vget2_vset2 _ _ _ _ _ d.1 d.2 E1). by case_decide.
Qed.

(** X16. A draw that repeats an earlier one is retried without effect:
    the constructor gives the same result whether or not the sequence of
    draws contains the repetition. *)
Theorem repeated_draw_ignored rows_ cols_ num_mines_ pre d post :
  d ∈ pre →
  Minesweeper_ctor rows_ cols_ num_mines_ (pre ++ d :: post) =
  Minesweeper_ctor rows_ cols_ num_mines_ (pre ++ post).
Proof.
  intros Hd. unfold Minesweeper_ctor.
  destruct (vmake2 rows_ cols_ false) as [mf0|]; [|done]. cbn [mbind result_bind].
  destruct (vmake2 rows_ cols_ 0) as [cnt0|]; [|done]. cbn [mbind result_bind].
  destruct (uniform_int_distribution 0 (rows_ - 1)); [|done]. cbn [mbind result_bind].
  destruct (uniform_int_distribution 0 (cols_ - 1)); [|done]. cbn [mbind result_bind].
  rewrite place_mines_repeat; [done|by left].
Qed.

Lemma repeated_draw_ignored_witness :
  Minesweeper_ctor 2 2 2 ([(0, 0)] ++ (0, 0) :: [(1, 1)]) =
  Minesweeper_ctor 2 2 2 ([(0, 0)] ++ [(1, 1)]).
Proof.
  apply (repeated_draw_ignored 2 2 2 [(0, 0)] (0, 0) [(1, 1)]).
  apply list_elem_of_here.
Defined.
